(** * draw2dpdf: a shallow embedding of the PDF graphic context (gc.go)

    Numbers.  Go [int32] values are modelled as [Z] with the two's-complement
    wrap-around written out ([wrap32]).  Go [float64] coordinates are modelled
    by exact rationals [Q]: the font-unit conversion below is exact in
    float64 for every int32 input (see [fUnitsToFloat64]); general sums of
    coordinates are taken without rounding. *)

From Stdlib Require Import ZArith QArith List String Bool Lia Lqa.
From Stdlib Require DecimalString DecimalN.
Import ListNotations.
Open Scope Z_scope.

(* ------------------------------------------------------------------ *)
(** ** Integers *)

(** Reduce an integer to the int32 range, as Go's fixed-width arithmetic does. *)
Definition wrap32 (z : Z) : Z :=
  let m := z mod 2 ^ 32 in
  if m >=? 2 ^ 31 then m - 2 ^ 32 else m.

Definition is_int32 (z : Z) : Prop := - 2 ^ 31 <= z < 2 ^ 31.

(** [func fUnitsToFloat64(x int32) float64]:
    [scaled := x << 2] (an int32 shift, wrapping), then
    [float64(scaled/256) + float64(scaled%256)/256.0] with Go's truncating
    [/] ([Z.quot]) and dividend-signed [%] ([Z.rem]).  In float64 every
    step is exact: [|scaled/256| <= 2^23], [scaled%256] is an integer below
    256 in magnitude, the division by 256 is by a power of two, and the sum
    is a multiple of [2^-8] below [2^24] in magnitude. *)
Definition fUnitsToFloat64 (x : Z) : Q :=
  let scaled := wrap32 (Z.shiftl x 2) in
  inject_Z (Z.quot scaled 256) + inject_Z (Z.rem scaled 256) / 256.

(** The exact rational [x*4/256] the conversion is meant to produce. *)
Definition fUnits_exact (x : Z) : Q := inject_Z (x * 4) / 256.

(* ------------------------------------------------------------------ *)
(** ** Package truetype (font backend, external collaborator) *)

Module truetype.

(** [truetype.Point]: coordinates in font units, bit 0 of [Flags] set for
    an on-curve point. *)
Record Point := mkPoint { X : Z; Y : Z; Flags : Z }.

(** The parts of a [*truetype.Font] the context uses, all at an integer
    scale: [Index] (rune to glyph index), [Kerning scale prev index],
    [HMetric scale index].AdvanceWidth, and [GlyphLoad scale glyph], the
    result of [glyphBuf.Load(font, scale, glyph, NoHinting)]: an error
    message, or the loaded [Point] slice and [End] offsets. *)
Record Font := mkFont {
  Index : Z -> Z;
  Kerning : Z -> Z -> Z -> Z;
  AdvanceWidth : Z -> Z -> Z;
  GlyphLoad : Z -> Z -> string + (list Point * list nat)
}.

End truetype.

(* ------------------------------------------------------------------ *)
(** ** Package draw2d (root package of the repository) *)

Module draw2d.

(** Modelled from the spec: the path storage of the draw2d root package
    (not under src/), an ordered sequence of move-to, line-to,
    quadratic-curve-to and close segments; a new path is empty. *)
Inductive PathCmd :=
| MoveTo (x y : Q)
| LineTo (x y : Q)
| QuadCurveTo (cx cy x y : Q)
| Close.

Definition PathStorage := list PathCmd.

Definition NewPathStorage : PathStorage := [].

(** Modelled from the spec: the fill rule of the draw2d root package,
    nonzero winding or even-odd. *)
Inductive FillRule := FillRuleEvenOdd | FillRuleWinding.

Definition UseNonZeroWinding (f : FillRule) : bool :=
  match f with
  | FillRuleWinding => true
  | FillRuleEvenOdd => false
  end.

Inductive Cap := RoundCap | ButtCap | SquareCap.
Inductive Join := RoundJoin | BevelJoin | MiterJoin.

End draw2d.

Import draw2d.

(** [color.Color], given by the four 16-bit values its [RGBA()] returns. *)
Record Color := mkColor { CR : Z; CG : Z; CB : Z; CA : Z }.

(** The drawing state [draw2d.ContextStack]. *)
Record ContextStack := mkContext {
  Font : option truetype.Font;   (* a nil [*truetype.Font] is [None] *)
  FontSize : Q;
  Scale : Q;
  LineWidth : Q;
  StrokeColor : Color;
  FillColor : Color;
  FillRule : draw2d.FillRule;
  Dash : list Q;
  DashOffset : Q;
  Cap : draw2d.Cap;
  Join : draw2d.Join;
  Path : PathStorage
}.

Definition set_Path (p : PathStorage) (c : ContextStack) : ContextStack :=
  mkContext (Font c) (FontSize c) (Scale c) (LineWidth c) (StrokeColor c)
    (FillColor c) (FillRule c) (Dash c) (DashOffset c) (Cap c) (Join c) p.

Definition set_FontSize (s : Q) (c : ContextStack) : ContextStack :=
  mkContext (Font c) s (Scale c) (LineWidth c) (StrokeColor c)
    (FillColor c) (FillRule c) (Dash c) (DashOffset c) (Cap c) (Join c) (Path c).

Definition set_Scale (s : Q) (c : ContextStack) : ContextStack :=
  mkContext (Font c) (FontSize c) s (LineWidth c) (StrokeColor c)
    (FillColor c) (FillRule c) (Dash c) (DashOffset c) (Cap c) (Join c) (Path c).

Definition set_LineWidth (w : Q) (c : ContextStack) : ContextStack :=
  mkContext (Font c) (FontSize c) (Scale c) w (StrokeColor c)
    (FillColor c) (FillRule c) (Dash c) (DashOffset c) (Cap c) (Join c) (Path c).

Definition set_StrokeColor (k : Color) (c : ContextStack) : ContextStack :=
  mkContext (Font c) (FontSize c) (Scale c) (LineWidth c) k
    (FillColor c) (FillRule c) (Dash c) (DashOffset c) (Cap c) (Join c) (Path c).

Definition set_FillColor (k : Color) (c : ContextStack) : ContextStack :=
  mkContext (Font c) (FontSize c) (Scale c) (LineWidth c) (StrokeColor c)
    k (FillRule c) (Dash c) (DashOffset c) (Cap c) (Join c) (Path c).

Definition set_FillRule (f : draw2d.FillRule) (c : ContextStack) : ContextStack :=
  mkContext (Font c) (FontSize c) (Scale c) (LineWidth c) (StrokeColor c)
    (FillColor c) f (Dash c) (DashOffset c) (Cap c) (Join c) (Path c).

Definition set_Cap (k : draw2d.Cap) (c : ContextStack) : ContextStack :=
  mkContext (Font c) (FontSize c) (Scale c) (LineWidth c) (StrokeColor c)
    (FillColor c) (FillRule c) (Dash c) (DashOffset c) k (Join c) (Path c).

Definition set_Join (j : draw2d.Join) (c : ContextStack) : ContextStack :=
  mkContext (Font c) (FontSize c) (Scale c) (LineWidth c) (StrokeColor c)
    (FillColor c) (FillRule c) (Dash c) (DashOffset c) (Cap c) j (Path c).

(** Modelled from the spec: [draw2d.StackGraphicContext] of the root
    package (not under src/), the current state and the stack of saved
    states (the most recently saved first). *)
Record StackGraphicContext := mkStack {
  Current : ContextStack;
  Saved : list ContextStack
}.

(* ------------------------------------------------------------------ *)
(** ** Package gofpdf (document handle, external collaborator)

    The document handle is a cached alpha and blend mode plus the log of
    every command the context issues to it, in order. *)

Module gofpdf.

Inductive Command :=
| PathOps (paths : list PathStorage)
| SetAlphaCmd (alpha : Q) (blendMode : string)
| DrawPathCmd (style : string)
| TransformBeginCmd
| TransformEndCmd
| SetLineWidthCmd (w : Q)
| SetDrawColorCmd (r g b : Z)
| SetFillColorCmd (r g b : Z)
| SetTextColorCmd (r g b : Z)
| SetLineCapStyleCmd (s : string)
| SetLineJoinStyleCmd (s : string)
| SetDashPatternCmd (d : list Q) (off : Q).

Record Fpdf := mkFpdf {
  alpha : Q;
  blendMode : string;
  commands : list Command
}.

Definition emit (c : Command) (p : Fpdf) : Fpdf :=
  mkFpdf (alpha p) (blendMode p) (commands p ++ [c]).

Definition GetAlpha (p : Fpdf) : Q * string := (alpha p, blendMode p).

Definition SetAlpha (a : Q) (bm : string) (p : Fpdf) : Fpdf :=
  mkFpdf a bm (commands p ++ [SetAlphaCmd a bm]).

Definition DrawPath (style : string) := emit (DrawPathCmd style).
Definition TransformBegin := emit TransformBeginCmd.
Definition TransformEnd := emit TransformEndCmd.
Definition SetLineWidth (w : Q) := emit (SetLineWidthCmd w).
Definition SetDrawColor (r g b : Z) := emit (SetDrawColorCmd r g b).
Definition SetFillColor (r g b : Z) := emit (SetFillColorCmd r g b).
Definition SetTextColor (r g b : Z) := emit (SetTextColorCmd r g b).
Definition SetLineCapStyle (s : string) := emit (SetLineCapStyleCmd s).
Definition SetLineJoinStyle (s : string) := emit (SetLineJoinStyleCmd s).

End gofpdf.

(** Modelled from the spec: [NewPathConverter(pdf).Convert(paths...)]
    (path_converter.go, not under src/) hands the combined path list to the
    document handle as its native path operations, subpaths preserved. *)
Definition Convert (paths : list PathStorage) (p : gofpdf.Fpdf) : gofpdf.Fpdf :=
  gofpdf.emit (gofpdf.PathOps paths) p.

(* ------------------------------------------------------------------ *)
(** ** The PDF [GraphicContext] *)

(** [GraphicContext]: the embedded stack context, the document handle, the
    DPI, and the lines written by [log.Println]. *)
Record GraphicContext := mkGC {
  stack : StackGraphicContext;
  pdf : gofpdf.Fpdf;
  DPI : Z;
  logs : list string
}.

Definition cur (gc : GraphicContext) : ContextStack := Current (stack gc).

Definition upd_Current (f : ContextStack -> ContextStack) (gc : GraphicContext)
  : GraphicContext :=
  mkGC (mkStack (f (cur gc)) (Saved (stack gc))) (pdf gc) (DPI gc) (logs gc).

Definition upd_pdf (f : gofpdf.Fpdf -> gofpdf.Fpdf) (gc : GraphicContext)
  : GraphicContext :=
  mkGC (stack gc) (f (pdf gc)) (DPI gc) (logs gc).

Definition log_Println (msg : string) (gc : GraphicContext) : GraphicContext :=
  mkGC (stack gc) (pdf gc) (DPI gc) (logs gc ++ [msg]).

(** [caps] and [joins] maps. *)
Definition caps (c : draw2d.Cap) : string :=
  match c with
  | RoundCap => "round" | ButtCap => "butt" | SquareCap => "square"
  end%string.

Definition joins (j : draw2d.Join) : string :=
  match j with
  | RoundJoin => "round" | BevelJoin => "bevel" | MiterJoin => "miter"
  end%string.

(** [rgb]: [int(float64(r) * c255)] per channel with [c255 = 255/65535]
    (truncation of a non-negative value; the float rounding of the product
    is not modelled). *)
Definition rgb (c : Color) : Z * Z * Z :=
  (Z.quot (CR c * 255) 65535, Z.quot (CG c * 255) 65535,
   Z.quot (CB c * 255) 65535).

(** [int32(f)] for a float [f] in range: truncation toward zero. *)
Definition int32_of_float (q : Q) : Z := Z.quot (Qnum q) (Zpos (Qden q)).

Local Open Scope Q_scope.

(** Modelled from the spec: [MoveTo], [LineTo] and [QuadCurveTo] of
    [draw2d.StackGraphicContext] append one segment to the current path. *)
Definition pathCall (c : PathCmd) (gc : GraphicContext) : GraphicContext :=
  upd_Current (fun k => set_Path (Path k ++ [c]) k) gc.

(* ------------------------------------------------------------------ *)
(** ** Glyph outlines *)

(** [pointToF64Point]: font units to floats, Y flipped. *)
Definition pointToF64Point (p : truetype.Point) : Q * Q :=
  (fUnitsToFloat64 (truetype.X p), - fUnitsToFloat64 (truetype.Y p)).

Definition onCurve (p : truetype.Point) : bool :=
  negb (Z.land (truetype.Flags p) 1 =? 0)%Z.

(** One iteration of the loop of [drawContour] over [ps[1:]], from the
    running [(q0X, q0Y, on0)]: the path calls it makes and the new running
    point. *)
Definition contourStep (dx dy : Q) (q : Q * Q * bool) (p : truetype.Point)
  : list PathCmd * (Q * Q * bool) :=
  let '(q0X, q0Y, on0) := q in
  let '(qX, qY) := pointToF64Point p in
  let on := onCurve p in
  let calls :=
    if on then
      if on0 then [LineTo (qX + dx) (qY + dy)]
      else [QuadCurveTo (q0X + dx) (q0Y + dy) (qX + dx) (qY + dy)]
    else
      if on0 then []
      else
        let midX := (q0X + qX) / 2 in
        let midY := (q0Y + qY) / 2 in
        [QuadCurveTo (q0X + dx) (q0Y + dy) (midX + dx) (midY + dy)]
  in (calls, (qX, qY, on)).

Fixpoint contourLoop (dx dy : Q) (q : Q * Q * bool) (ps : list truetype.Point)
  : list PathCmd * (Q * Q * bool) :=
  match ps with
  | [] => ([], q)
  | p :: ps' =>
      let '(c1, q1) := contourStep dx dy q p in
      let '(c2, q2) := contourLoop dx dy q1 ps' in
      (c1 ++ c2, q2)
  end.

(** The call that closes the curve after the loop, from the running point
    back to the start. *)
Definition closeContour (dx dy startX startY : Q) (q : Q * Q * bool) : PathCmd :=
  let '(q0X, q0Y, on0) := q in
  if on0 then LineTo (startX + dx) (startY + dy)
  else QuadCurveTo (q0X + dx) (q0Y + dy) (startX + dx) (startY + dy).

(** The path calls made by [drawContour(ps, dx, dy)], in order. *)
Definition contourCalls (ps : list truetype.Point) (dx dy : Q) : list PathCmd :=
  match ps with
  | [] => []
  | p0 :: rest =>
      let '(startX, startY) := pointToF64Point p0 in
      let '(body, (q0X, q0Y, on0)) := contourLoop dx dy (startX, startY, true) rest in
      MoveTo (startX + dx) (startY + dy) :: body ++ [closeContour dx dy startX startY (q0X, q0Y, on0)]
  end.

Definition drawContour (ps : list truetype.Point) (dx dy : Q) (gc : GraphicContext)
  : GraphicContext :=
  fold_left (fun g c => pathCall c g) (contourCalls ps dx dy) gc.

(** Go's slice expression [s[lo:hi]]: a panic ([None]) unless
    [lo <= hi <= len(s)]. *)
Definition goSlice {A} (s : list A) (lo hi : nat) : option (list A) :=
  if (lo <=? hi)%nat && (hi <=? List.length s)%nat
  then Some (firstn (hi - lo) (skipn lo s)) else None.

(** The loop of [drawGlyph] over [glyphBuf.End]; [None] is a panic. *)
Fixpoint drawContours (pts : list truetype.Point) (e0 : nat) (ends : list nat)
  (dx dy : Q) (gc : GraphicContext) : option GraphicContext :=
  match ends with
  | [] => Some gc
  | e1 :: es =>
      match goSlice pts e0 e1 with
      | None => None
      | Some ps => drawContours pts e1 es dx dy (drawContour ps dx dy gc)
      end
  end.

(** [drawGlyph]: [None] is a panic, [Some (Some err, _)] a returned error,
    [Some (None, _)] a nil error. *)
Definition drawGlyph (glyph : Z) (dx dy : Q) (gc : GraphicContext)
  : option (option string * GraphicContext) :=
  match Font (cur gc) with
  | None => None
  | Some f =>
      match truetype.GlyphLoad f (int32_of_float (Scale (cur gc))) glyph with
      | inl err => Some (Some err, gc)
      | inr (pts, ends) =>
          match drawContours pts 0 ends dx dy gc with
          | None => None
          | Some gc' => Some (None, gc')
          end
      end
  end.

(** [loadCurrentFont]. *)
Definition loadCurrentFont (gc : GraphicContext) : option truetype.Font * option string :=
  (Font (cur gc), None).

(** The [for _, rune := range s] loop of [CreateStringPath], with the
    cursor [x] and [prev, hasPrev]; [None] is a panic (a method called on a
    nil font, or a bad slice). *)
Fixpoint layoutLoop (font : option truetype.Font) (startx y : Q) (s : list Z)
  (x : Q) (prev : Z) (hasPrev : bool) (gc : GraphicContext)
  : option (Q * GraphicContext) :=
  match s with
  | [] => Some (x - startx, gc)
  | r :: s' =>
      match font with
      | None => None
      | Some f =>
          let index := truetype.Index f r in
          let sc := int32_of_float (Scale (cur gc)) in
          let x1 := if hasPrev then x + fUnitsToFloat64 (truetype.Kerning f sc prev index)
                    else x in
          match drawGlyph index x1 y gc with
          | None => None
          | Some (Some err, gc1) => Some (startx - x1, log_Println err gc1)
          | Some (None, gc1) =>
              layoutLoop font startx y s'
                (x1 + fUnitsToFloat64 (truetype.AdvanceWidth f sc index)) index true gc1
          end
      end
  end.

(** [CreateStringPath(s, x, y)]; [s] is given as its sequence of runes. *)
Definition CreateStringPath (gc : GraphicContext) (s : list Z) (x y : Q)
  : option (Q * GraphicContext) :=
  match loadCurrentFont gc with
  | (_, Some err) => Some (0, log_Println err gc)
  | (font, None) => layoutLoop font x y s x 0%Z false gc
  end.

(* ------------------------------------------------------------------ *)
(** ** Drawing *)

Definition alphaMax : Q := 65535.

(** [draw(style, alpha, paths...)]. *)
Definition draw (style : string) (alpha : Z) (paths : list PathStorage)
  (gc : GraphicContext) : GraphicContext :=
  let paths' := paths ++ [Path (cur gc)] in
  let p1 := Convert paths' (pdf gc) in
  let a := inject_Z alpha / alphaMax in
  let '(current, blendMode) := gofpdf.GetAlpha p1 in
  let p2 := if negb (Qeq_bool a current) then gofpdf.SetAlpha a blendMode p1 else p1 in
  upd_pdf (fun _ => gofpdf.DrawPath style p2) gc.

Definition resetPath (gc : GraphicContext) : GraphicContext :=
  upd_Current (set_Path NewPathStorage) gc.

Definition Stroke (paths : list PathStorage) (gc : GraphicContext) : GraphicContext :=
  let alphaS := CA (StrokeColor (cur gc)) in
  resetPath (draw "D" alphaS paths gc).

Definition Fill (paths : list PathStorage) (gc : GraphicContext) : GraphicContext :=
  let style := if negb (UseNonZeroWinding (FillRule (cur gc))) then "F*"%string else "F"%string in
  let alphaF := CA (FillColor (cur gc)) in
  resetPath (draw style alphaF paths gc).

Definition FillStroke (paths : list PathStorage) (gc : GraphicContext) : GraphicContext :=
  let rule := if negb (UseNonZeroWinding (FillRule (cur gc))) then "*"%string else ""%string in
  let alphaS := CA (StrokeColor (cur gc)) in
  let alphaF := CA (FillColor (cur gc)) in
  let gc1 :=
    if (alphaS =? alphaF)%Z then draw ("FD" ++ rule) alphaF paths gc
    else draw "S" alphaS paths (draw ("F" ++ rule) alphaF paths gc) in
  resetPath gc1.

(** [FillStringAt] and [StrokeStringAt]. *)
Definition FillStringAt (gc : GraphicContext) (text : list Z) (x y : Q)
  : option (Q * GraphicContext) :=
  match CreateStringPath gc text x y with
  | None => None
  | Some (width, gc1) => Some (width, Fill [] gc1)
  end.

Definition StrokeStringAt (gc : GraphicContext) (text : list Z) (x y : Q)
  : option (Q * GraphicContext) :=
  CreateStringPath gc text x y.

(* ------------------------------------------------------------------ *)
(** ** Setters and the state stack *)

(** Modelled from the spec: [Save] and [Restore] of
    [draw2d.StackGraphicContext] (root package, not under src/): [Save]
    pushes a copy of the current state, [Restore] pops the most recently
    saved state back as the current one (nothing to pop: no change). *)
Definition stackSave (s : StackGraphicContext) : StackGraphicContext :=
  mkStack (Current s) (Current s :: Saved s).

Definition stackRestore (s : StackGraphicContext) : StackGraphicContext :=
  match Saved s with
  | [] => s
  | c :: rest => mkStack c rest
  end.

Definition upd_stack (f : StackGraphicContext -> StackGraphicContext)
  (gc : GraphicContext) : GraphicContext :=
  mkGC (f (stack gc)) (pdf gc) (DPI gc) (logs gc).

(** [recalc] and [SetFontSize]: local state only. *)
Definition recalc (gc : GraphicContext) : GraphicContext :=
  upd_Current (fun c => set_Scale (FontSize c * inject_Z (DPI gc) * (64 / 72) / 3) c) gc.

Definition SetFontSize (fontSize : Q) (gc : GraphicContext) : GraphicContext :=
  recalc (upd_Current (set_FontSize fontSize) gc).

Definition SetLineWidth (w : Q) (gc : GraphicContext) : GraphicContext :=
  upd_pdf (gofpdf.SetLineWidth w) (upd_Current (set_LineWidth w) gc).

Definition SetStrokeColor (c : Color) (gc : GraphicContext) : GraphicContext :=
  let '(r, g, b) := rgb c in
  upd_pdf (gofpdf.SetDrawColor r g b) (upd_Current (set_StrokeColor c) gc).

Definition SetFillColor (c : Color) (gc : GraphicContext) : GraphicContext :=
  let '(r, g, b) := rgb c in
  upd_pdf (gofpdf.SetTextColor r g b)
    (upd_pdf (gofpdf.SetFillColor r g b) (upd_Current (set_FillColor c) gc)).

(** Modelled from the spec: [SetFillRule] is not overridden by the PDF
    context; the stack context's setter records the rule in the current
    state. *)
Definition SetFillRule (f : draw2d.FillRule) (gc : GraphicContext) : GraphicContext :=
  upd_Current (set_FillRule f) gc.

Definition SetLineCap (k : draw2d.Cap) (gc : GraphicContext) : GraphicContext :=
  upd_pdf (gofpdf.SetLineCapStyle (caps k)) (upd_Current (set_Cap k) gc).

Definition SetLineJoin (j : draw2d.Join) (gc : GraphicContext) : GraphicContext :=
  upd_pdf (gofpdf.SetLineJoinStyle (joins j)) (upd_Current (set_Join j) gc).

Definition SetLineDash (d : list Q) (off : Q) (gc : GraphicContext) : GraphicContext :=
  upd_pdf (gofpdf.emit (gofpdf.SetDashPatternCmd d off))
    (upd_Current (fun c => mkContext (Font c) (FontSize c) (Scale c) (LineWidth c)
       (StrokeColor c) (FillColor c) (FillRule c) d off (Cap c) (Join c) (Path c)) gc).

Definition Save (gc : GraphicContext) : GraphicContext :=
  upd_pdf gofpdf.TransformBegin (upd_stack stackSave gc).

Definition Restore (gc : GraphicContext) : GraphicContext :=
  let gc1 := upd_stack stackRestore (upd_pdf gofpdf.TransformEnd gc) in
  let c := cur gc1 in
  let gc2 := SetFontSize (FontSize c) gc1 in
  let gc3 := SetLineWidth (LineWidth c) gc2 in
  let gc4 := SetStrokeColor (StrokeColor c) gc3 in
  let gc5 := SetFillColor (FillColor c) gc4 in
  let gc6 := SetFillRule (FillRule c) gc5 in
  let gc7 := SetLineCap (Cap c) gc6 in
  SetLineJoin (Join c) gc7.

(** The paint operations, for statements about any of them. *)
Inductive DrawOp := OpFill | OpStroke | OpFillStroke.

Definition runDraw (op : DrawOp) (paths : list PathStorage) (gc : GraphicContext)
  : GraphicContext :=
  match op with
  | OpFill => Fill paths gc
  | OpStroke => Stroke paths gc
  | OpFillStroke => FillStroke paths gc
  end.

(** The path lists handed to the document handle by a command log. *)
Fixpoint pathOps (cs : list gofpdf.Command) : list (list PathStorage) :=
  match cs with
  | [] => []
  | gofpdf.PathOps ps :: t => ps :: pathOps t
  | _ :: t => pathOps t
  end.

(** The draw commands of a command log, each with the alpha the document
    handle holds when it receives it, replaying the log from alpha [a]. *)
Fixpoint drawsAt (a : Q) (cs : list gofpdf.Command) : list (string * Q) :=
  match cs with
  | [] => []
  | gofpdf.SetAlphaCmd a' _ :: t => drawsAt a' t
  | gofpdf.DrawPathCmd s :: t => (s, a) :: drawsAt a t
  | _ :: t => drawsAt a t
  end.

Definition sameDraws (l1 l2 : list (string * Q)) : Prop :=
  Forall2 (fun p q => fst p = fst q /\ snd p == snd q) l1 l2.

(** The [End] offsets of a loaded glyph slice its points without a panic:
    non-decreasing from [e0] and within the point count. *)
Fixpoint endsOK (e0 : nat) (ends : list nat) (n : nat) : bool :=
  match ends with
  | [] => true
  | e1 :: es => (e0 <=? e1)%nat && (e1 <=? n)%nat && endsOK e1 es n
  end.

(** A glyph loads successfully at a scale: [glyphBuf.Load] returns no
    error and a well-formed outline. *)
Definition glyphOK (f : truetype.Font) (sc glyph : Z) : bool :=
  match truetype.GlyphLoad f sc glyph with
  | inl _ => false
  | inr (pts, ends) => endsOK 0 ends (List.length pts)
  end.

(** The sum, over the runes of a string, of the converted kerning with the
    previous glyph (none before the first) and the converted advance
    width. *)
Fixpoint advanceSum (f : truetype.Font) (sc : Z) (s : list Z) (prev : Z) (hasPrev : bool)
  : Q :=
  match s with
  | [] => 0
  | r :: s' =>
      let index := truetype.Index f r in
      (if hasPrev then fUnitsToFloat64 (truetype.Kerning f sc prev index) else 0)
      + fUnitsToFloat64 (truetype.AdvanceWidth f sc index)
      + advanceSum f sc s' index true
  end.

(** The [prev, hasPrev] pair after the loop has run over [s]. *)
Fixpoint loopPrev (f : truetype.Font) (s : list Z) (prev : Z) (hasPrev : bool) : Z * bool :=
  match s with
  | [] => (prev, hasPrev)
  | r :: s' => loopPrev f s' (truetype.Index f r) true
  end.

(** The converted kerning added before the glyph of rune [r] when it
    follows the runes [pre]. *)
Definition kernBefore (f : truetype.Font) (sc : Z) (pre : list Z) (r : Z) : Q :=
  let '(prev, hasPrev) := loopPrev f pre 0%Z false in
  if hasPrev then fUnitsToFloat64 (truetype.Kerning f sc prev (truetype.Index f r)) else 0.

(* ------------------------------------------------------------------ *)
(** ** Further methods of the PDF context *)

(** [SetDPI] and [GetDPI]. *)
Definition SetDPI (dpi : Z) (gc : GraphicContext) : GraphicContext :=
  recalc (mkGC (stack gc) (pdf gc) dpi (logs gc)).

Definition GetDPI (gc : GraphicContext) : Z := DPI gc.

(** [SetFont]: the font pointer (possibly nil) goes to the local state only. *)
Definition SetFont (font : option truetype.Font) (gc : GraphicContext) : GraphicContext :=
  upd_Current (fun c => mkContext font (FontSize c) (Scale c) (LineWidth c)
    (StrokeColor c) (FillColor c) (FillRule c) (Dash c) (DashOffset c) (Cap c) (Join c)
    (Path c)) gc.

(** [FillString] and [StrokeString]: the [At] variants at [0, 0]. *)
Definition FillString (gc : GraphicContext) (text : list Z) : option (Q * GraphicContext) :=
  FillStringAt gc text 0 0.

Definition StrokeString (gc : GraphicContext) (text : list Z) : option (Q * GraphicContext) :=
  StrokeStringAt gc text 0 0.

(** The calls of the context that leave the state stack alone (setters,
    path building and painting), for statements about any sequence of
    them. *)
Inductive Op :=
| DoSetFont (font : option truetype.Font)
| DoSetFontSize (s : Q)
| DoSetDPI (dpi : Z)
| DoSetLineWidth (w : Q)
| DoSetStrokeColor (c : Color)
| DoSetFillColor (c : Color)
| DoSetFillRule (f : draw2d.FillRule)
| DoSetLineCap (k : draw2d.Cap)
| DoSetLineJoin (j : draw2d.Join)
| DoSetLineDash (d : list Q) (off : Q)
| DoPath (c : PathCmd)
| DoPaint (op : DrawOp) (paths : list PathStorage).

Definition runOp (o : Op) (gc : GraphicContext) : GraphicContext :=
  match o with
  | DoSetFont f => SetFont f gc
  | DoSetFontSize s => SetFontSize s gc
  | DoSetDPI d => SetDPI d gc
  | DoSetLineWidth w => SetLineWidth w gc
  | DoSetStrokeColor c => SetStrokeColor c gc
  | DoSetFillColor c => SetFillColor c gc
  | DoSetFillRule f => SetFillRule f gc
  | DoSetLineCap k => SetLineCap k gc
  | DoSetLineJoin j => SetLineJoin j gc
  | DoSetLineDash d off => SetLineDash d off gc
  | DoPath c => pathCall c gc
  | DoPaint op paths => runDraw op paths gc
  end.

Fixpoint runOps (os : list Op) (gc : GraphicContext) : GraphicContext :=
  match os with
  | [] => gc
  | o :: os' => runOps os' (runOp o gc)
  end.

(** [Scale] agrees with [recalc]'s formula for the font size and DPI. *)
Definition scaleOK (gc : GraphicContext) : Prop :=
  Scale (cur gc) == FontSize (cur gc) * inject_Z (DPI gc) * (64 / 72) / 3.

(** The nesting depth of the transformation blocks of a command log: each
    [TransformBegin] opens one, each [TransformEnd] closes one. *)
Fixpoint transformDepth (cs : list gofpdf.Command) : Z :=
  match cs with
  | [] => 0
  | gofpdf.TransformBeginCmd :: t => 1 + transformDepth t
  | gofpdf.TransformEndCmd :: t => transformDepth t - 1
  | _ :: t => transformDepth t
  end%Z.

(** Open transformation blocks of the document not accounted for by a
    saved state. *)
Definition blockBalance (gc : GraphicContext) : Z :=
  (transformDepth (gofpdf.commands (pdf gc)) - Z.of_nat (List.length (Saved (stack gc))))%Z.

(** The state after path segments [calls] were appended to the current path
    and the lines [msgs] logged, everything else unchanged. *)
Definition extendGC (gc : GraphicContext) (calls : list PathCmd) (msgs : list string)
  : GraphicContext :=
  mkGC (mkStack (set_Path (Path (cur gc) ++ calls) (cur gc)) (Saved (stack gc)))
    (pdf gc) (DPI gc) (logs gc ++ msgs).

(** The point slices [Point[e0:e1]] that [drawGlyph] hands to
    [drawContour], one per [End] offset. *)
Fixpoint contourSlices (pts : list truetype.Point) (e0 : nat) (ends : list nat)
  : list (list truetype.Point) :=
  match ends with
  | [] => []
  | e1 :: es => firstn (e1 - e0) (skipn e0 pts) :: contourSlices pts e1 es
  end.

(** Path segment classification. *)
Definition isSegment (c : PathCmd) : bool :=
  match c with LineTo _ _ | QuadCurveTo _ _ _ _ => true | _ => false end.

Definition segEnd (c : PathCmd) : option (Q * Q) :=
  match c with
  | MoveTo x y | LineTo x y | QuadCurveTo _ _ x y => Some (x, y)
  | Close => None
  end.

(* ------------------------------------------------------------------ *)
(** ** Images *)

(** [strconv.Itoa] of a non-negative integer: its decimal digits. *)
Definition Itoa (n : Z) : string :=
  DecimalString.NilEmpty.string_of_uint (N.to_uint (Z.to_N n)).

(** [image.Rectangle], [Dx] and [Dy]. *)
Record Rectangle := mkRectangle { MinX : Z; MinY : Z; MaxX : Z; MaxY : Z }.

Definition Dx (r : Rectangle) : Z := (MaxX r - MinX r)%Z.
Definition Dy (r : Rectangle) : Z := (MaxY r - MinY r)%Z.

(** An [image.Image]: its bounds and its pixels. *)
Record Image := mkImage { Bounds : Rectangle; At : Z -> Z -> Color }.

(** The image calls [DrawImage] makes on the document handle. *)
Inductive ImageCall :=
| RegisterImageReader (name tp : string) (data : list Byte.byte)
| ImageCmd (name : string) (x y w h : Q) (flow : bool) (tp : string) (link : Z)
    (linkStr : string).

Section DrawImage.

(** The bytes [png.Encode] writes for an image (its error is ignored by
    [DrawImage]). *)
Variable pngEncode : Image -> list Byte.byte.

(** [DrawImage], threading the package variable [imageCount] (a [uint32])
    and the image calls made so far. *)
Definition DrawImage (image : Image) (st : Z * list ImageCall) : Z * list ImageCall :=
  let '(imageCount, calls) := st in
  let name := Itoa imageCount in
  let imageCount' := ((imageCount + 1) mod 2 ^ 32)%Z in
  let tp := "PNG"%string in
  let b := pngEncode image in
  let bounds := Bounds image in
  let x0 := inject_Z (MinX bounds) in
  let y0 := inject_Z (MinY bounds) in
  let w := inject_Z (Dx bounds) in
  let h := inject_Z (Dy bounds) in
  (imageCount', calls ++ [RegisterImageReader name tp b;
                          ImageCmd name x0 y0 w h false tp 0 ""]).

(** Successive [DrawImage] calls. *)
Fixpoint drawImages (images : list Image) (st : Z * list ImageCall) : Z * list ImageCall :=
  match images with
  | [] => st
  | i :: t => drawImages t (DrawImage i st)
  end.

End DrawImage.

(** The names under which images were registered, in order. *)
Definition registeredNames (calls : list ImageCall) : list string :=
  flat_map (fun c => match c with RegisterImageReader n _ _ => [n] | _ => [] end) calls.

(* ------------------------------------------------------------------ *)
(** ** Sample inputs *)

(** A unit square outline, all points on-curve. *)
Definition sampleSquare : list truetype.Point :=
  [truetype.mkPoint 0 0 1; truetype.mkPoint 64 0 1;
   truetype.mkPoint 64 64 1; truetype.mkPoint 0 64 1].

(** A font mapping each rune to the glyph of the same index; glyphs 65
    ('A') and 66 ('B') are squares with advances 640 and 512 font units
    (10 and 8 after conversion), every pair kerns by 128 (2 after
    conversion), and any other glyph fails to load. *)
Definition sampleFont : truetype.Font :=
  truetype.mkFont
    (fun r => r)
    (fun _ _ _ => 128%Z)
    (fun _ i => if (i =? 65)%Z then 640%Z else 512%Z)
    (fun _ i => if ((i =? 65) || (i =? 66))%Z then inr (sampleSquare, [4%nat])
                else inl "glyph not found"%string).

Definition black : Color := mkColor 0 0 0 65535.
Definition white : Color := mkColor 65535 65535 65535 65535.

(** A 12 point font at 72 DPI: scale [12 * 72 * (64/72) / 3 = 256]. *)
Definition sampleContext : ContextStack :=
  mkContext (Some sampleFont) 12 256 1 black white FillRuleWinding [] 0
    RoundCap RoundJoin NewPathStorage.

Definition sampleGC : GraphicContext :=
  mkGC (mkStack sampleContext []) (gofpdf.mkFpdf 1 "Normal" []) 72 [].

Local Close Scope Q_scope.

(* ------------------------------------------------------------------ *)
(** ** Lemmas on the conversion *)

Lemma wrap32_small (z : Z) : is_int32 z -> wrap32 z = z.
Proof.
  unfold is_int32, wrap32; intros H.
  destruct (Z_le_gt_dec 0 z) as [Hz | Hz].
  - rewrite Z.mod_small by lia.
    destruct (Z.geb_spec z (2 ^ 31)); lia.
  - replace (z mod 2 ^ 32) with (z + 2 ^ 32).
    + destruct (Z.geb_spec (z + 2 ^ 32) (2 ^ 31)); lia.
    + apply Z.mod_unique with (q := -1); lia.
Qed.

Lemma quot_rem_Q (a : Z) :
  (inject_Z (Z.quot a 256) + inject_Z (Z.rem a 256) / 256 == inject_Z a / 256)%Q.
Proof.
  rewrite (Z.quot_rem' a 256) at 3.
  rewrite inject_Z_plus, inject_Z_mult.
  field.
Qed.

Open Scope Q_scope.

(** ** Claims *)

(** C1 (corrected).  For every int32 [x] the conversion returns the rational
    [wrap32(4x)/256], computed as the truncated quotient plus the
    dividend-signed remainder over 256; when [-2^29 <= x < 2^29], so that
    [x << 2] does not overflow int32, this is exactly [x*4/256]. *)
Theorem fUnitsToFloat64_exact (x : Z) (Hx : is_int32 x) :
  fUnitsToFloat64 x == inject_Z (wrap32 (x * 4)) / 256 /\
  ((- 2 ^ 29 <= x < 2 ^ 29)%Z -> fUnitsToFloat64 x == fUnits_exact x).
Proof.
  unfold fUnitsToFloat64, fUnits_exact.
  rewrite Z.shiftl_mul_pow2 by lia.
  change (2 ^ 2)%Z with 4%Z.
  split.
  - apply quot_rem_Q.
  - intros H. rewrite wrap32_small by (unfold is_int32; lia).
    apply quot_rem_Q.
Qed.

Lemma fUnitsToFloat64_exact_witness :
  is_int32 1000 /\
  (fUnitsToFloat64 1000 == inject_Z (wrap32 (1000 * 4)) / 256 /\
   ((- 2 ^ 29 <= 1000 < 2 ^ 29)%Z -> fUnitsToFloat64 1000 == fUnits_exact 1000)).
Proof.
  split.
  - unfold is_int32; lia.
  - apply (fUnitsToFloat64_exact 1000); unfold is_int32; lia.
Defined.

(** C1 counterexample: [x = 2^29] is a non-negative int32, but [x << 2]
    wraps to [-2^31], so the conversion returns [-2^23] instead of [2^23]. *)
Lemma fUnitsToFloat64_overflow :
  is_int32 536870912 /\
  fUnitsToFloat64 536870912 == -8388608 /\
  ~ (fUnitsToFloat64 536870912 == fUnits_exact 536870912).
Proof.
  split; [unfold is_int32; lia |].
  split; [vm_compute; reflexivity |].
  vm_compute. discriminate.
Qed.

(* ------------------------------------------------------------------ *)
(** ** Lemmas on the path and the contour tracer *)

Lemma set_Path_set_Path p q k : set_Path p (set_Path q k) = set_Path p k.
Proof. destruct k; reflexivity. Qed.

Lemma pathCalls_fold (calls : list PathCmd) (gc : GraphicContext) :
  fold_left (fun g c => pathCall c g) calls gc =
  mkGC (mkStack (set_Path (Path (cur gc) ++ calls) (cur gc)) (Saved (stack gc)))
    (pdf gc) (DPI gc) (logs gc).
Proof.
  revert gc; induction calls as [| c calls IH]; intros gc; simpl.
  - destruct gc as [[[] s] p d l]; unfold cur, set_Path; simpl.
    rewrite app_nil_r; reflexivity.
  - rewrite IH. destruct gc as [[k s] p d l]; unfold pathCall, upd_Current, cur; simpl.
    rewrite set_Path_set_Path. destruct k; simpl. rewrite <- app_assoc; reflexivity.
Qed.

Lemma drawContour_path ps dx dy gc :
  Path (cur (drawContour ps dx dy gc)) = Path (cur gc) ++ contourCalls ps dx dy.
Proof.
  unfold drawContour; rewrite pathCalls_fold; unfold cur at 1; simpl.
  destruct (cur gc); reflexivity.
Qed.

Lemma contourLoop_all_on dx dy rest :
  Forall (fun p => onCurve p = true) rest ->
  forall q0X q0Y, exists qX qY,
    contourLoop dx dy (q0X, q0Y, true) rest =
    (map (fun p => LineTo (fst (pointToF64Point p) + dx) (snd (pointToF64Point p) + dy)) rest,
     (qX, qY, true)).
Proof.
  induction 1 as [| p rest Hp Hrest IH]; intros q0X q0Y; simpl.
  - exists q0X, q0Y; reflexivity.
  - rewrite Hp.
    destruct (IH (fUnitsToFloat64 (truetype.X p)) (- fUnitsToFloat64 (truetype.Y p)))
      as [qX [qY E]].
    rewrite E; exists qX, qY; reflexivity.
Qed.

Lemma contourLoop_app dx dy q l1 l2 :
  contourLoop dx dy q (l1 ++ l2) =
  let '(c1, q1) := contourLoop dx dy q l1 in
  let '(c2, q2) := contourLoop dx dy q1 l2 in (c1 ++ c2, q2).
Proof.
  revert q; induction l1 as [| p l1 IH]; intros q; simpl.
  - destruct (contourLoop dx dy q l2); reflexivity.
  - destruct (contourStep dx dy q p) as [c0 q0]. rewrite IH.
    destruct (contourLoop dx dy q0 l1) as [c1 q1].
    destruct (contourLoop dx dy q1 l2) as [c2 q2].
    rewrite app_assoc; reflexivity.
Qed.

Lemma contourLoop_last_state dx dy q pre a :
  snd (contourLoop dx dy q (pre ++ [a])) =
  (fst (pointToF64Point a), snd (pointToF64Point a), onCurve a).
Proof.
  rewrite contourLoop_app.
  destruct (contourLoop dx dy q pre) as [c1 q1]; simpl.
  destruct q1 as [[x0 y0] o0]; reflexivity.
Qed.

Lemma contourLoop_off_off dx dy x0 y0 b post :
  onCurve b = false ->
  contourLoop dx dy (x0, y0, false) (b :: post) =
  let bX := fst (pointToF64Point b) in
  let bY := snd (pointToF64Point b) in
  let '(c2, q2) := contourLoop dx dy (bX, bY, false) post in
  (QuadCurveTo (x0 + dx) (y0 + dy) ((x0 + bX) / 2 + dx) ((y0 + bY) / 2 + dy) :: c2, q2).
Proof.
  intros Hb. cbn [contourLoop]. unfold contourStep.
  change (pointToF64Point b) with (fst (pointToF64Point b), snd (pointToF64Point b)).
  cbv iota beta zeta. rewrite Hb.
  destruct (contourLoop dx dy _ post); reflexivity.
Qed.

(** C4.  For a non-empty contour whose points are all on-curve,
    [drawContour] appends to the current path one move-to at the first
    point, one line-to per remaining point in order, and a final line-to
    back to the start, every coordinate offset by [(dx, dy)]; no
    quadratic segment. *)
Theorem drawContour_all_on_curve (p0 : truetype.Point) (rest : list truetype.Point)
  (dx dy : Q) (gc : GraphicContext)
  (Hon : Forall (fun p => onCurve p = true) (p0 :: rest)) :
  let sX := fst (pointToF64Point p0) in
  let sY := snd (pointToF64Point p0) in
  Path (cur (drawContour (p0 :: rest) dx dy gc)) =
  Path (cur gc) ++
    MoveTo (sX + dx) (sY + dy) ::
    map (fun p => LineTo (fst (pointToF64Point p) + dx) (snd (pointToF64Point p) + dy)) rest ++
    [LineTo (sX + dx) (sY + dy)].
Proof.
  intros sX sY. rewrite drawContour_path. f_equal.
  inversion Hon as [| ? ? _ Hrest]; subst.
  destruct (contourLoop_all_on dx dy rest Hrest sX sY) as [qX [qY E]].
  unfold contourCalls.
  change (pointToF64Point p0) with (sX, sY). cbv iota beta. rewrite E. reflexivity.
Qed.

(** C5 (corrected).  When [drawContour] processes an off-curve point [b]
    whose predecessor [a] is an off-curve point other than the contour's
    first point (the first point is always taken as on-curve), it emits
    exactly one quadratic curve with control [a] and end the midpoint of
    [a] and [b], offset by [(dx, dy)], and the loop goes on with [b] as the
    pending off-curve control point.  An off-curve point [b] directly after
    the first point [p0], whatever the flag of [p0], emits no segment: the
    calls go from the move-to at [p0] straight to those of the points after
    [b], with [b] as the pending control point. *)
Theorem drawContour_offcurve_pair (p0 a b : truetype.Point)
  (pre post : list truetype.Point) (dx dy : Q)
  (Ha : onCurve a = false) (Hb : onCurve b = false) :
  let sX := fst (pointToF64Point p0) in
  let sY := snd (pointToF64Point p0) in
  let aX := fst (pointToF64Point a) in
  let aY := snd (pointToF64Point a) in
  let bX := fst (pointToF64Point b) in
  let bY := snd (pointToF64Point b) in
  contourCalls (p0 :: pre ++ a :: b :: post) dx dy =
  MoveTo (sX + dx) (sY + dy) ::
  fst (contourLoop dx dy (sX, sY, true) (pre ++ [a])) ++
  QuadCurveTo (aX + dx) (aY + dy) ((aX + bX) / 2 + dx) ((aY + bY) / 2 + dy) ::
  fst (contourLoop dx dy (bX, bY, false) post) ++
  [closeContour dx dy sX sY (snd (contourLoop dx dy (bX, bY, false) post))] /\
  contourCalls (p0 :: b :: post) dx dy =
  MoveTo (sX + dx) (sY + dy) ::
  fst (contourLoop dx dy (bX, bY, false) post) ++
  [closeContour dx dy sX sY (snd (contourLoop dx dy (bX, bY, false) post))].
Proof.
  cbv zeta. split.
  2:{ unfold contourCalls.
      change (pointToF64Point p0) with (fst (pointToF64Point p0), snd (pointToF64Point p0)).
      cbv iota beta. cbn [contourLoop]. unfold contourStep.
      change (pointToF64Point b) with (fst (pointToF64Point b), snd (pointToF64Point b)).
      cbv iota beta zeta. rewrite Hb.
      destruct (contourLoop dx dy _ post) as [c2 [[q0X q0Y] on0]]. reflexivity. }
  unfold contourCalls.
  change (pointToF64Point p0) with (fst (pointToF64Point p0), snd (pointToF64Point p0)).
  cbv iota beta.
  replace (pre ++ a :: b :: post) with ((pre ++ [a]) ++ b :: post)
    by (rewrite <- app_assoc; reflexivity).
  rewrite contourLoop_app.
  pose proof (contourLoop_last_state dx dy
    (fst (pointToF64Point p0), snd (pointToF64Point p0), true) pre a) as Hq.
  destruct (contourLoop dx dy _ (pre ++ [a])) as [c1 q1].
  cbn [snd] in Hq; subst q1. rewrite Ha.
  rewrite (contourLoop_off_off dx dy _ _ b post Hb). cbv zeta.
  destruct (contourLoop dx dy _ post) as [c2 [[q0X q0Y] on0]].
  cbn [fst snd]. rewrite <- app_assoc. reflexivity.
Qed.

(** C5 counterexample: a contour of two off-curve points.  The second point
    follows an off-curve point, yet no curve to their midpoint [(1, 0)]
    with control [(0, 0)] is emitted: the first point is taken as
    on-curve, so the only curve is the closing one. *)
Lemma drawContour_first_point_offcurve :
  onCurve (truetype.mkPoint 0 0 0) = false /\
  onCurve (truetype.mkPoint 128 0 0) = false /\
  ~ (exists cx cy ex ey,
       In (QuadCurveTo cx cy ex ey)
          (contourCalls [truetype.mkPoint 0 0 0; truetype.mkPoint 128 0 0] 0 0) /\
       cx == 0 /\ cy == 0 /\ ex == 1 /\ ey == 0).
Proof.
  split; [reflexivity |]. split; [reflexivity |].
  intros [cx [cy [ex [ey [Hin [H1 _]]]]]].
  vm_compute in Hin.
  destruct Hin as [H | [H | []]]; [discriminate |].
  injection H as <- _ _ _. vm_compute in H1. discriminate.
Qed.

(** C10.  [loadCurrentFont] returns the current font and a nil error for
    every state, also when no font is set, so [CreateStringPath] never
    takes its font-error branch: it always runs the glyph loop.  With no
    font and an empty string nothing is logged and the width is [0]. *)
Theorem loadCurrentFont_never_fails (gc : GraphicContext) :
  loadCurrentFont gc = (Font (cur gc), None) /\
  (forall s x y, CreateStringPath gc s x y = layoutLoop (Font (cur gc)) x y s x 0%Z false gc) /\
  (Font (cur gc) = None -> forall x y, CreateStringPath gc [] x y = Some (x - x, gc)).
Proof.
  split; [reflexivity |]. split; [reflexivity |].
  intros _ x y; reflexivity.
Qed.

(* ------------------------------------------------------------------ *)
(** ** Lemmas on the draw dispatcher *)

Lemma pathOps_app l1 l2 : pathOps (l1 ++ l2) = pathOps l1 ++ pathOps l2.
Proof.
  induction l1 as [| c l1 IH]; [reflexivity |].
  destruct c; simpl; rewrite ?IH; reflexivity.
Qed.

Lemma draw_cmds style a paths gc :
  let gc' := draw style a paths gc in
  cur gc' = cur gc /\
  gofpdf.alpha (pdf gc') == inject_Z a / alphaMax /\
  exists new,
    gofpdf.commands (pdf gc') = gofpdf.commands (pdf gc) ++ new /\
    pathOps new = [paths ++ [Path (cur gc)]] /\
    (forall rest, drawsAt (gofpdf.alpha (pdf gc)) (new ++ rest) =
                  (style, gofpdf.alpha (pdf gc')) :: drawsAt (gofpdf.alpha (pdf gc')) rest).
Proof.
  destruct gc as [st [al bm cs] d l].
  unfold draw, Convert, gofpdf.GetAlpha, gofpdf.emit, gofpdf.SetAlpha, gofpdf.DrawPath, upd_pdf.
  cbn.
  destruct (Qeq_bool (inject_Z a / alphaMax) al) eqn:E; cbn.
  - apply Qeq_bool_iff in E.
    split; [reflexivity |]. split; [symmetry; exact E |].
    eexists; split; [rewrite <- !app_assoc; reflexivity |].
    split; reflexivity.
  - split; [reflexivity |]. split; [reflexivity |].
    eexists; split; [rewrite <- !app_assoc; reflexivity |].
    split; reflexivity.
Qed.

Lemma resetPath_pdf gc : pdf (resetPath gc) = pdf gc.
Proof. reflexivity. Qed.

Lemma resetPath_path gc : Path (cur (resetPath gc)) = NewPathStorage.
Proof. destruct gc as [[[] s] p d l]; reflexivity. Qed.

Lemma runDraw_path op paths gc : Path (cur (runDraw op paths gc)) = NewPathStorage.
Proof. destruct op; apply resetPath_path. Qed.

Lemma runDraw_cmds op paths gc :
  exists new,
    gofpdf.commands (pdf (runDraw op paths gc)) = gofpdf.commands (pdf gc) ++ new /\
    pathOps new <> [] /\
    Forall (fun l => l = paths ++ [Path (cur gc)]) (pathOps new).
Proof.
  destruct op; unfold runDraw.
  - unfold Fill; cbv zeta; rewrite resetPath_pdf.
    match goal with |- context [draw ?s ?a paths gc] =>
      destruct (draw_cmds s a paths gc) as [_ [_ [new [E [P _]]]]] end.
    exists new; rewrite E, P; split; [reflexivity |]; split; [discriminate |]; auto.
  - unfold Stroke; cbv zeta; rewrite resetPath_pdf.
    match goal with |- context [draw ?s ?a paths gc] =>
      destruct (draw_cmds s a paths gc) as [_ [_ [new [E [P _]]]]] end.
    exists new; rewrite E, P; split; [reflexivity |]; split; [discriminate |]; auto.
  - unfold FillStroke; cbv zeta; rewrite resetPath_pdf.
    destruct (_ =? _)%Z.
    + match goal with |- context [draw ?s ?a paths gc] =>
        destruct (draw_cmds s a paths gc) as [_ [_ [new [E [P _]]]]] end.
      exists new; rewrite E, P; split; [reflexivity |]; split; [discriminate |]; auto.
    + match goal with |- context [draw ?s ?a paths gc] =>
        destruct (draw_cmds s a paths gc) as [C1 [_ [new1 [E1 [P1 _]]]]];
        set (g1 := draw s a paths gc) in * end.
      match goal with |- context [draw ?s ?a paths g1] =>
        destruct (draw_cmds s a paths g1) as [_ [_ [new2 [E2 [P2 _]]]]] end.
      exists (new1 ++ new2). rewrite E2, E1, <- app_assoc.
      split; [reflexivity |].
      rewrite pathOps_app, P1, P2, C1. split; [discriminate |].
      simpl; auto.
Qed.

(** C8.  After [Fill], [Stroke] or [FillStroke], whatever the extra paths
    and the paint state, the current path is a new empty path; the next
    paint operation hands the document handle only its own extra paths and
    that empty path. *)
Theorem paint_consumes_path (op1 op2 : DrawOp) (paths1 paths2 : list PathStorage)
  (gc : GraphicContext) :
  let gc1 := runDraw op1 paths1 gc in
  Path (cur gc1) = NewPathStorage /\
  exists new,
    gofpdf.commands (pdf (runDraw op2 paths2 gc1)) = gofpdf.commands (pdf gc1) ++ new /\
    pathOps new <> [] /\
    Forall (fun l => l = paths2 ++ [NewPathStorage]) (pathOps new).
Proof.
  intros gc1. split; [apply runDraw_path |].
  destruct (runDraw_cmds op2 paths2 gc1) as [new [E [N F]]].
  exists new; split; [exact E |]; split; [exact N |].
  unfold gc1 in F; rewrite runDraw_path in F; exact F.
Qed.

(** C3.  [FillStroke] with equal stroke and fill alpha issues one draw
    command, the combined fill+stroke style ([FD], with [*] for the
    even-odd rule), at the fill alpha; with different alphas it issues two,
    the fill ([F] or [F*]) at the fill alpha and then the stroke ([S]) at
    the stroke alpha. *)
Theorem FillStroke_dispatch (paths : list PathStorage) (gc : GraphicContext) :
  let rule := if negb (UseNonZeroWinding (FillRule (cur gc))) then "*"%string else ""%string in
  let alphaS := CA (StrokeColor (cur gc)) in
  let alphaF := CA (FillColor (cur gc)) in
  exists new,
    gofpdf.commands (pdf (FillStroke paths gc)) = gofpdf.commands (pdf gc) ++ new /\
    sameDraws (drawsAt (gofpdf.alpha (pdf gc)) new)
      (if (alphaS =? alphaF)%Z
       then [("FD" ++ rule, inject_Z alphaF / alphaMax)]
       else [("F" ++ rule, inject_Z alphaF / alphaMax); ("S", inject_Z alphaS / alphaMax)])%string.
Proof.
  intros rule alphaS alphaF.
  unfold FillStroke; fold rule alphaS alphaF; cbv zeta; rewrite resetPath_pdf.
  destruct (alphaS =? alphaF)%Z.
  - destruct (draw_cmds ("FD" ++ rule) alphaF paths gc) as [_ [A [new [E [_ D]]]]].
    exists new; split; [exact E |].
    specialize (D []); rewrite app_nil_r in D; rewrite D.
    constructor; [split; [reflexivity | exact A] | constructor].
  - destruct (draw_cmds ("F" ++ rule) alphaF paths gc) as [C1 [A1 [new1 [E1 [_ D1]]]]].
    set (g1 := draw ("F" ++ rule) alphaF paths gc) in *.
    destruct (draw_cmds "S" alphaS paths g1) as [_ [A2 [new2 [E2 [_ D2]]]]].
    exists (new1 ++ new2). rewrite E2, E1, <- app_assoc. split; [reflexivity |].
    rewrite D1. specialize (D2 []); rewrite app_nil_r in D2; rewrite D2.
    constructor; [split; [reflexivity | exact A1] |].
    constructor; [split; [reflexivity | exact A2] | constructor].
Qed.

(* ------------------------------------------------------------------ *)
(** ** Lemmas on the glyph layout engine *)

Lemma drawContour_cur ps dx dy gc :
  cur (drawContour ps dx dy gc) = set_Path (Path (cur gc) ++ contourCalls ps dx dy) (cur gc).
Proof. unfold drawContour; rewrite pathCalls_fold; reflexivity. Qed.

Lemma drawContours_ok pts dx dy ends :
  forall e0 gc, endsOK e0 ends (List.length pts) = true ->
  exists gc', drawContours pts e0 ends dx dy gc = Some gc' /\
    Font (cur gc') = Font (cur gc) /\ Scale (cur gc') = Scale (cur gc).
Proof.
  induction ends as [| e1 es IH]; intros e0 gc H; simpl.
  - exists gc; auto.
  - simpl in H. apply andb_prop in H as [H Hes]. apply andb_prop in H as [H0 H1].
    unfold goSlice; rewrite H0, H1; simpl.
    destruct (IH e1 (drawContour (firstn (e1 - e0) (skipn e0 pts)) dx dy gc) Hes)
      as [gc' [E [F S]]].
    exists gc'; split; [exact E |].
    rewrite F, S, drawContour_cur. destruct (cur gc); auto.
Qed.

Lemma drawGlyph_ok f glyph dx dy gc :
  Font (cur gc) = Some f ->
  glyphOK f (int32_of_float (Scale (cur gc))) glyph = true ->
  exists gc', drawGlyph glyph dx dy gc = Some (None, gc') /\
    Font (cur gc') = Some f /\ Scale (cur gc') = Scale (cur gc).
Proof.
  intros Hf Hok. unfold drawGlyph, glyphOK in *. rewrite Hf.
  destruct (truetype.GlyphLoad f _ glyph) as [err | [pts ends]]; [discriminate |].
  destruct (drawContours_ok pts dx dy ends 0 gc Hok) as [gc' [E [F S]]].
  rewrite E. exists gc'; rewrite F, Hf; auto.
Qed.

Lemma drawGlyph_fail f glyph dx dy gc err :
  Font (cur gc) = Some f ->
  truetype.GlyphLoad f (int32_of_float (Scale (cur gc))) glyph = inl err ->
  drawGlyph glyph dx dy gc = Some (Some err, gc).
Proof. intros Hf Hl. unfold drawGlyph. rewrite Hf, Hl. reflexivity. Qed.

Lemma layoutLoop_ok f sc startx y s :
  forall x prev hasPrev gc,
  Font (cur gc) = Some f ->
  int32_of_float (Scale (cur gc)) = sc ->
  Forall (fun r => glyphOK f sc (truetype.Index f r) = true) s ->
  exists x' gc',
    layoutLoop (Some f) startx y s x prev hasPrev gc = Some (x' - startx, gc') /\
    x' == x + advanceSum f sc s prev hasPrev /\
    Font (cur gc') = Some f /\ int32_of_float (Scale (cur gc')) = sc /\
    (forall s2, layoutLoop (Some f) startx y (s ++ s2) x prev hasPrev gc =
                layoutLoop (Some f) startx y s2 x'
                  (fst (loopPrev f s prev hasPrev)) (snd (loopPrev f s prev hasPrev)) gc').
Proof.
  induction s as [| r s IH]; intros x prev hasPrev gc Hf Hsc Hok.
  - exists x, gc. simpl. repeat split; auto. ring.
  - inversion Hok as [| ? ? Hr Hs]; subst.
    set (index := truetype.Index f r).
    set (x1 := if hasPrev then x + fUnitsToFloat64 (truetype.Kerning f
                 (int32_of_float (Scale (cur gc))) prev index) else x).
    destruct (drawGlyph_ok f index x1 y gc Hf Hr) as [gc1 [E1 [F1 S1]]].
    assert (Hsc1 : int32_of_float (Scale (cur gc1)) = int32_of_float (Scale (cur gc)))
      by (rewrite S1; reflexivity).
    destruct (IH (x1 + fUnitsToFloat64 (truetype.AdvanceWidth f
                     (int32_of_float (Scale (cur gc))) index)) index true gc1 F1 Hsc1 Hs)
      as [x' [gc' [E [X [F [S C]]]]]].
    exists x', gc'.
    assert (Step : forall s2, layoutLoop (Some f) startx y (r :: s2) x prev hasPrev gc =
      layoutLoop (Some f) startx y s2 (x1 + fUnitsToFloat64 (truetype.AdvanceWidth f
                     (int32_of_float (Scale (cur gc))) index)) index true gc1).
    { intros s2. simpl. fold index. fold x1. rewrite E1. reflexivity. }
    split; [rewrite Step; exact E |].
    split.
    + rewrite X. simpl. fold index. unfold x1. destruct hasPrev; ring.
    + split; [exact F |]. split; [exact S |].
      intros s2. rewrite <- app_comm_cons, Step. apply C.
Qed.

(** C6.  When every glyph of the string loads, [CreateStringPath] returns
    [cursorX - startX], the sum over the glyphs of the converted advance
    width plus, for each consecutive pair, the converted kerning.  For the
    empty string it returns [0] and leaves the state, hence the path,
    unchanged. *)
Theorem CreateStringPath_width (gc : GraphicContext) (f : truetype.Font) (s : list Z)
  (x y : Q)
  (Hf : Font (cur gc) = Some f)
  (Hok : Forall (fun r => glyphOK f (int32_of_float (Scale (cur gc))) (truetype.Index f r) = true) s) :
  (exists w gc', CreateStringPath gc s x y = Some (w, gc') /\
     w == advanceSum f (int32_of_float (Scale (cur gc))) s 0%Z false) /\
  (forall gc0 x0 y0, CreateStringPath gc0 [] x0 y0 = Some (x0 - x0, gc0) /\ x0 - x0 == 0).
Proof.
  split.
  - destruct (layoutLoop_ok f _ x y s x 0%Z false gc Hf eq_refl Hok)
      as [x' [gc' [E [X _]]]].
    exists (x' - x), gc'. split.
    + unfold CreateStringPath, loadCurrentFont; rewrite Hf; exact E.
    + rewrite X; ring.
  - intros gc0 x0 y0; split; [reflexivity | ring].
Qed.

(** C7.  When the glyph of rune [r] fails to load after the runes [pre]
    have been laid out, [CreateStringPath] logs the error, lays out nothing
    of [r] or of the runes after it, and returns [startX - cursorX], where
    [cursorX] is the start plus the width of [pre] plus the kerning before
    [r]: negative once the cursor is past the start.  The state it returns
    is that of laying out [pre] alone (its contours stay in the path) plus
    the log line. *)
Theorem CreateStringPath_glyph_failure (gc : GraphicContext) (f : truetype.Font)
  (pre post : list Z) (r : Z) (x y : Q) (err : string)
  (Hf : Font (cur gc) = Some f)
  (Hok : Forall (fun r => glyphOK f (int32_of_float (Scale (cur gc))) (truetype.Index f r) = true) pre)
  (Hfail : truetype.GlyphLoad f (int32_of_float (Scale (cur gc))) (truetype.Index f r) = inl err) :
  exists w1 gc1,
    CreateStringPath gc pre x y = Some (w1, gc1) /\
    exists v,
      CreateStringPath gc (pre ++ r :: post) x y = Some (v, log_Println err gc1) /\
      let cursorX := x + w1 + kernBefore f (int32_of_float (Scale (cur gc))) pre r in
      v == x - cursorX /\ (x < cursorX -> v < 0).
Proof.
  set (sc := int32_of_float (Scale (cur gc))) in *.
  destruct (layoutLoop_ok f sc x y pre x 0%Z false gc Hf eq_refl Hok)
    as [x' [gc1 [E [X [F [S C]]]]]].
  exists (x' - x), gc1.
  unfold CreateStringPath, loadCurrentFont; rewrite Hf.
  split; [exact E |].
  rewrite C. unfold kernBefore.
  destruct (loopPrev f pre 0%Z false) as [prev hasPrev].
  cbn [fst snd layoutLoop].
  rewrite (drawGlyph_fail f _ _ y gc1 err F) by (rewrite S; exact Hfail).
  eexists; split; [reflexivity |].
  assert (V : x - (if hasPrev then x' + fUnitsToFloat64 (truetype.Kerning f
                (int32_of_float (Scale (cur gc1))) prev (truetype.Index f r)) else x')
              == x - (x + (x' - x) + (if hasPrev then fUnitsToFloat64 (truetype.Kerning f sc
                prev (truetype.Index f r)) else 0))).
  { rewrite S; fold sc. destruct hasPrev; ring. }
  split; [exact V |].
  intros Hlt. rewrite V.
  set (K := if hasPrev then fUnitsToFloat64 (truetype.Kerning f sc prev (truetype.Index f r))
            else 0) in *.
  lra.
Qed.

(* ------------------------------------------------------------------ *)
(** ** Lemmas on the setters and the state stack *)

Lemma cur_SetFontSize s gc :
  cur (SetFontSize s gc) = set_Scale (s * inject_Z (DPI gc) * (64 / 72) / 3) (set_FontSize s (cur gc)).
Proof. reflexivity. Qed.
Lemma cur_SetLineWidth w gc : cur (SetLineWidth w gc) = set_LineWidth w (cur gc).
Proof. reflexivity. Qed.
Lemma cur_SetStrokeColor k gc : cur (SetStrokeColor k gc) = set_StrokeColor k (cur gc).
Proof. reflexivity. Qed.
Lemma cur_SetFillColor k gc : cur (SetFillColor k gc) = set_FillColor k (cur gc).
Proof. reflexivity. Qed.
Lemma cur_SetFillRule f gc : cur (SetFillRule f gc) = set_FillRule f (cur gc).
Proof. reflexivity. Qed.
Lemma cur_SetLineCap k gc : cur (SetLineCap k gc) = set_Cap k (cur gc).
Proof. reflexivity. Qed.
Lemma cur_SetLineJoin j gc : cur (SetLineJoin j gc) = set_Join j (cur gc).
Proof. reflexivity. Qed.

Lemma DPI_SetFontSize s gc : DPI (SetFontSize s gc) = DPI gc.
Proof. reflexivity. Qed.
Lemma DPI_SetLineWidth w gc : DPI (SetLineWidth w gc) = DPI gc.
Proof. reflexivity. Qed.
Lemma DPI_SetStrokeColor k gc : DPI (SetStrokeColor k gc) = DPI gc.
Proof. reflexivity. Qed.
Lemma DPI_SetFillColor k gc : DPI (SetFillColor k gc) = DPI gc.
Proof. reflexivity. Qed.
Lemma DPI_SetFillRule f gc : DPI (SetFillRule f gc) = DPI gc.
Proof. reflexivity. Qed.
Lemma DPI_SetLineCap k gc : DPI (SetLineCap k gc) = DPI gc.
Proof. reflexivity. Qed.

Lemma cmds_SetFontSize s gc : gofpdf.commands (pdf (SetFontSize s gc)) = gofpdf.commands (pdf gc).
Proof. reflexivity. Qed.
Lemma cmds_SetLineWidth w gc :
  gofpdf.commands (pdf (SetLineWidth w gc)) = gofpdf.commands (pdf gc) ++ [gofpdf.SetLineWidthCmd w].
Proof. reflexivity. Qed.
Lemma cmds_SetStrokeColor k gc :
  gofpdf.commands (pdf (SetStrokeColor k gc)) = gofpdf.commands (pdf gc) ++
    [let '(r, g, b) := rgb k in gofpdf.SetDrawColorCmd r g b].
Proof. reflexivity. Qed.
Lemma cmds_SetFillColor k gc :
  gofpdf.commands (pdf (SetFillColor k gc)) = gofpdf.commands (pdf gc) ++
    (let '(r, g, b) := rgb k in [gofpdf.SetFillColorCmd r g b; gofpdf.SetTextColorCmd r g b]).
Proof. unfold SetFillColor, rgb, upd_pdf, gofpdf.SetTextColor, gofpdf.SetFillColor, gofpdf.emit.
  cbn. rewrite <- app_assoc. reflexivity. Qed.
Lemma cmds_SetFillRule f gc : gofpdf.commands (pdf (SetFillRule f gc)) = gofpdf.commands (pdf gc).
Proof. reflexivity. Qed.
Lemma cmds_SetLineCap k gc :
  gofpdf.commands (pdf (SetLineCap k gc)) = gofpdf.commands (pdf gc) ++ [gofpdf.SetLineCapStyleCmd (caps k)].
Proof. reflexivity. Qed.
Lemma cmds_SetLineJoin j gc :
  gofpdf.commands (pdf (SetLineJoin j gc)) = gofpdf.commands (pdf gc) ++ [gofpdf.SetLineJoinStyleCmd (joins j)].
Proof. reflexivity. Qed.

Lemma Save_pop_cur gc :
  cur (upd_stack stackRestore (upd_pdf gofpdf.TransformEnd (Save gc))) = cur gc.
Proof. reflexivity. Qed.
Lemma Save_pop_DPI gc :
  DPI (upd_stack stackRestore (upd_pdf gofpdf.TransformEnd (Save gc))) = DPI gc.
Proof. reflexivity. Qed.
Lemma Save_pop_cmds gc :
  gofpdf.commands (pdf (upd_stack stackRestore (upd_pdf gofpdf.TransformEnd (Save gc)))) =
  gofpdf.commands (pdf gc) ++ [gofpdf.TransformBeginCmd; gofpdf.TransformEndCmd].
Proof.
  unfold Save, upd_stack, upd_pdf, gofpdf.TransformEnd, gofpdf.TransformBegin, gofpdf.emit.
  cbn. rewrite <- app_assoc. reflexivity.
Qed.

(** C9 (corrected).  [Save] immediately followed by [Restore] leaves the
    stroke colour, fill colour, line width, cap, join and fill rule (and the
    font, dash pattern and path) of the current state as they were before
    [Save].  [Restore] re-sends the line width, the stroke colour (as draw
    colour), the fill colour (as fill and text colour), the cap and the
    join to the document handle; the fill rule is only set in the local
    state, and no font, dash or path command reaches the handle. *)
Theorem Save_Restore_paint_state (gc : GraphicContext) :
  let c := cur gc in
  let gc' := Restore (Save gc) in
  StrokeColor (cur gc') = StrokeColor c /\ FillColor (cur gc') = FillColor c /\
  LineWidth (cur gc') = LineWidth c /\ Cap (cur gc') = Cap c /\
  Join (cur gc') = Join c /\ FillRule (cur gc') = FillRule c /\
  Font (cur gc') = Font c /\ Dash (cur gc') = Dash c /\
  DashOffset (cur gc') = DashOffset c /\ Path (cur gc') = Path c /\
  gofpdf.commands (pdf gc') = gofpdf.commands (pdf gc) ++
    (let '(sr, sg, sb) := rgb (StrokeColor c) in
     let '(fr, fg, fb) := rgb (FillColor c) in
     [gofpdf.TransformBeginCmd; gofpdf.TransformEndCmd;
      gofpdf.SetLineWidthCmd (LineWidth c);
      gofpdf.SetDrawColorCmd sr sg sb;
      gofpdf.SetFillColorCmd fr fg fb; gofpdf.SetTextColorCmd fr fg fb;
      gofpdf.SetLineCapStyleCmd (caps (Cap c));
      gofpdf.SetLineJoinStyleCmd (joins (Join c))]).
Proof.
  intros c gc'.
  assert (Hc : cur gc' =
    let c0 := cur gc in
    set_Join (Join c0) (set_Cap (Cap c0) (set_FillRule (FillRule c0)
      (set_FillColor (FillColor c0) (set_StrokeColor (StrokeColor c0)
        (set_LineWidth (LineWidth c0)
          (set_Scale (FontSize c0 * inject_Z (DPI gc) * (64 / 72) / 3)
            (set_FontSize (FontSize c0) c0)))))))).
  { unfold gc', Restore. cbv zeta.
    rewrite cur_SetLineJoin, cur_SetLineCap, cur_SetFillRule, cur_SetFillColor,
      cur_SetStrokeColor, cur_SetLineWidth, cur_SetFontSize,
      ?DPI_SetLineCap, ?DPI_SetFillRule, ?DPI_SetFillColor, ?DPI_SetStrokeColor,
      ?DPI_SetLineWidth, ?DPI_SetFontSize, ?Save_pop_DPI, ?Save_pop_cur.
    reflexivity. }
  assert (Hp : gofpdf.commands (pdf gc') = gofpdf.commands (pdf gc) ++
    [gofpdf.TransformBeginCmd; gofpdf.TransformEndCmd] ++
    [gofpdf.SetLineWidthCmd (LineWidth c)] ++
    [let '(r, g, b) := rgb (StrokeColor c) in gofpdf.SetDrawColorCmd r g b] ++
    (let '(r, g, b) := rgb (FillColor c) in [gofpdf.SetFillColorCmd r g b; gofpdf.SetTextColorCmd r g b]) ++
    [gofpdf.SetLineCapStyleCmd (caps (Cap c))] ++
    [gofpdf.SetLineJoinStyleCmd (joins (Join c))]).
  { unfold gc', Restore. cbv zeta.
    rewrite cmds_SetLineJoin, cmds_SetLineCap, cmds_SetFillRule, cmds_SetFillColor,
      cmds_SetStrokeColor, cmds_SetLineWidth, cmds_SetFontSize, Save_pop_cmds.
    rewrite ?cur_SetLineCap, ?cur_SetFillRule, ?cur_SetFillColor, ?cur_SetStrokeColor,
      ?cur_SetLineWidth, ?cur_SetFontSize, ?Save_pop_cur.
    rewrite <- !app_assoc. reflexivity. }
  rewrite Hc, Hp. unfold c. destruct (cur gc) as [? ? ? ? [] [] ? ? ? ? ? ?]; cbn.
  repeat (split; [reflexivity |]). reflexivity.
Qed.

(** C9 counterexample: two states that differ only in their fill rule
    produce the same commands to the document handle on [Save] then
    [Restore], so the fill rule is not re-applied to the handle. *)
Lemma Restore_fill_rule_not_sent :
  FillRule (cur sampleGC) = FillRuleWinding /\
  FillRule (cur (upd_Current (set_FillRule FillRuleEvenOdd) sampleGC)) = FillRuleEvenOdd /\
  gofpdf.commands (pdf (Restore (Save sampleGC))) =
  gofpdf.commands (pdf (Restore (Save (upd_Current (set_FillRule FillRuleEvenOdd) sampleGC)))).
Proof. split; [reflexivity |]. split; [reflexivity |]. vm_compute. reflexivity. Qed.

(** C2 (code defect).  [StrokeStringAt] is documented as filling the
    string, but it only builds the path: for the string "A" no command at
    all reaches the document handle and the glyph's contour stays in the
    current path, whereas [FillStringAt] issues the fill and empties the
    path. *)
Theorem StrokeStringAt_does_not_fill :
  (exists w gc', StrokeStringAt sampleGC [65%Z] 0 0 = Some (w, gc') /\
     gofpdf.commands (pdf gc') = [] /\ Path (cur gc') <> NewPathStorage) /\
  (exists w gc', FillStringAt sampleGC [65%Z] 0 0 = Some (w, gc') /\
     In (gofpdf.DrawPathCmd "F") (gofpdf.commands (pdf gc')) /\ Path (cur gc') = NewPathStorage).
Proof.
  split.
  - do 2 eexists. split; [reflexivity |].
    split; [reflexivity |]. vm_compute. discriminate.
  - do 2 eexists. split; [reflexivity |].
    split; [vm_compute; auto | reflexivity].
Qed.

(* ------------------------------------------------------------------ *)
(** ** Witnesses *)

Lemma drawContour_all_on_curve_witness :
  Forall (fun p => onCurve p = true)
    (truetype.mkPoint 0 0 1 :: [truetype.mkPoint 64 0 1; truetype.mkPoint 64 64 1;
                                truetype.mkPoint 0 64 1]) /\
  (let sX := fst (pointToF64Point (truetype.mkPoint 0 0 1)) in
   let sY := snd (pointToF64Point (truetype.mkPoint 0 0 1)) in
   Path (cur (drawContour (truetype.mkPoint 0 0 1 :: [truetype.mkPoint 64 0 1;
               truetype.mkPoint 64 64 1; truetype.mkPoint 0 64 1]) 1 2 sampleGC)) =
   Path (cur sampleGC) ++
     MoveTo (sX + 1) (sY + 2) ::
     map (fun p => LineTo (fst (pointToF64Point p) + 1) (snd (pointToF64Point p) + 2))
       [truetype.mkPoint 64 0 1; truetype.mkPoint 64 64 1; truetype.mkPoint 0 64 1] ++
     [LineTo (sX + 1) (sY + 2)]).
Proof.
  split; [repeat constructor |].
  apply (drawContour_all_on_curve (truetype.mkPoint 0 0 1)
           [truetype.mkPoint 64 0 1; truetype.mkPoint 64 64 1; truetype.mkPoint 0 64 1]
           1 2 sampleGC).
  repeat constructor.
Defined.

Lemma drawContour_offcurve_pair_witness :
  onCurve (truetype.mkPoint 64 0 0) = false /\ onCurve (truetype.mkPoint 64 64 0) = false /\
  (let p0 := truetype.mkPoint 0 0 1 in
   let a := truetype.mkPoint 64 0 0 in
   let b := truetype.mkPoint 64 64 0 in
   let sX := fst (pointToF64Point p0) in
   let sY := snd (pointToF64Point p0) in
   let aX := fst (pointToF64Point a) in
   let aY := snd (pointToF64Point a) in
   let bX := fst (pointToF64Point b) in
   let bY := snd (pointToF64Point b) in
   contourCalls (p0 :: [] ++ a :: b :: [truetype.mkPoint 0 64 1]) 0 0 =
   MoveTo (sX + 0) (sY + 0) ::
   fst (contourLoop 0 0 (sX, sY, true) ([] ++ [a])) ++
   QuadCurveTo (aX + 0) (aY + 0) ((aX + bX) / 2 + 0) ((aY + bY) / 2 + 0) ::
   fst (contourLoop 0 0 (bX, bY, false) [truetype.mkPoint 0 64 1]) ++
   [closeContour 0 0 sX sY (snd (contourLoop 0 0 (bX, bY, false) [truetype.mkPoint 0 64 1]))] /\
   contourCalls (p0 :: b :: [truetype.mkPoint 0 64 1]) 0 0 =
   MoveTo (sX + 0) (sY + 0) ::
   fst (contourLoop 0 0 (bX, bY, false) [truetype.mkPoint 0 64 1]) ++
   [closeContour 0 0 sX sY (snd (contourLoop 0 0 (bX, bY, false) [truetype.mkPoint 0 64 1]))]).
Proof.
  split; [reflexivity |]. split; [reflexivity |].
  apply (drawContour_offcurve_pair (truetype.mkPoint 0 0 1) (truetype.mkPoint 64 0 0)
           (truetype.mkPoint 64 64 0) [] [truetype.mkPoint 0 64 1] 0 0);
    reflexivity.
Defined.

Lemma CreateStringPath_width_witness :
  Font (cur sampleGC) = Some sampleFont /\
  Forall (fun r => glyphOK sampleFont (int32_of_float (Scale (cur sampleGC)))
                     (truetype.Index sampleFont r) = true) [65; 66]%Z /\
  ((exists w gc', CreateStringPath sampleGC [65; 66]%Z 0 0 = Some (w, gc') /\
      w == advanceSum sampleFont (int32_of_float (Scale (cur sampleGC))) [65; 66]%Z 0%Z false) /\
   (forall gc0 x0 y0, CreateStringPath gc0 [] x0 y0 = Some (x0 - x0, gc0) /\ x0 - x0 == 0)) /\
  advanceSum sampleFont (int32_of_float (Scale (cur sampleGC))) [65; 66]%Z 0%Z false == 20.
Proof.
  split; [reflexivity |]. split; [repeat constructor |]. split.
  - apply (CreateStringPath_width sampleGC sampleFont [65; 66]%Z 0 0);
      [reflexivity | repeat constructor].
  - vm_compute. reflexivity.
Defined.

Lemma CreateStringPath_glyph_failure_witness :
  Font (cur sampleGC) = Some sampleFont /\
  Forall (fun r => glyphOK sampleFont (int32_of_float (Scale (cur sampleGC)))
                     (truetype.Index sampleFont r) = true) [65%Z] /\
  truetype.GlyphLoad sampleFont (int32_of_float (Scale (cur sampleGC)))
    (truetype.Index sampleFont 67) = inl "glyph not found"%string /\
  (exists w1 gc1,
    CreateStringPath sampleGC [65%Z] 0 0 = Some (w1, gc1) /\
    exists v,
      CreateStringPath sampleGC ([65%Z] ++ 67%Z :: [66%Z]) 0 0 =
        Some (v, log_Println "glyph not found" gc1) /\
      let cursorX := 0 + w1 + kernBefore sampleFont (int32_of_float (Scale (cur sampleGC)))
                                 [65%Z] 67 in
      v == 0 - cursorX /\ (0 < cursorX -> v < 0)) /\
  kernBefore sampleFont (int32_of_float (Scale (cur sampleGC))) [65%Z] 67 == 2.
Proof.
  split; [reflexivity |]. split; [repeat constructor |]. split; [reflexivity |]. split.
  - apply (CreateStringPath_glyph_failure sampleGC sampleFont [65%Z] [66%Z] 67 0 0
             "glyph not found"); [reflexivity | repeat constructor | reflexivity].
  - vm_compute. reflexivity.
Defined.

(* ------------------------------------------------------------------ *)
(** ** Further properties: painting *)

Lemma draw_commands style a paths gc :
  gofpdf.commands (pdf (draw style a paths gc)) =
  gofpdf.commands (pdf gc) ++ gofpdf.PathOps (paths ++ [Path (cur gc)]) ::
    (if Qeq_bool (inject_Z a / alphaMax) (gofpdf.alpha (pdf gc)) then []
     else [gofpdf.SetAlphaCmd (inject_Z a / alphaMax) (gofpdf.blendMode (pdf gc))]) ++
    [gofpdf.DrawPathCmd style].
Proof.
  destruct gc as [st [al bm cs] d l].
  unfold draw, Convert, gofpdf.GetAlpha, gofpdf.emit, gofpdf.SetAlpha, gofpdf.DrawPath, upd_pdf.
  cbn. destruct (Qeq_bool (inject_Z a / alphaMax) al); cbn; rewrite <- !app_assoc; reflexivity.
Qed.

Lemma draw_alpha style a paths gc :
  gofpdf.alpha (pdf (draw style a paths gc)) =
  if Qeq_bool (inject_Z a / alphaMax) (gofpdf.alpha (pdf gc)) then gofpdf.alpha (pdf gc)
  else inject_Z a / alphaMax.
Proof.
  destruct gc as [st [al bm cs] d l].
  unfold draw, Convert, gofpdf.GetAlpha, gofpdf.emit, gofpdf.SetAlpha, gofpdf.DrawPath, upd_pdf.
  cbn. destruct (Qeq_bool (inject_Z a / alphaMax) al); reflexivity.
Qed.

Lemma draw_blendMode style a paths gc :
  gofpdf.blendMode (pdf (draw style a paths gc)) = gofpdf.blendMode (pdf gc).
Proof.
  destruct gc as [st [al bm cs] d l].
  unfold draw, Convert, gofpdf.GetAlpha, gofpdf.emit, gofpdf.SetAlpha, gofpdf.DrawPath, upd_pdf.
  cbn. destruct (Qeq_bool (inject_Z a / alphaMax) al); reflexivity.
Qed.

Lemma draw_stack style a paths gc : stack (draw style a paths gc) = stack gc.
Proof. reflexivity. Qed.

Lemma cur_resetPath gc : cur (resetPath gc) = set_Path NewPathStorage (cur gc).
Proof. reflexivity. Qed.

Lemma Qeq_bool_compat_r x y z : y == z -> Qeq_bool x y = Qeq_bool x z.
Proof.
  intros H. destruct (Qeq_bool x y) eqn:E1, (Qeq_bool x z) eqn:E2; auto.
  - apply Qeq_bool_iff in E1. rewrite H in E1. apply Qeq_bool_iff in E1. congruence.
  - apply Qeq_bool_iff in E2. rewrite <- H in E2. apply Qeq_bool_iff in E2. congruence.
Qed.

Lemma Qeq_bool_alpha_ne (x y : Z) :
  x <> y -> Qeq_bool (inject_Z x / alphaMax) (inject_Z y / alphaMax) = false.
Proof.
  intros H. destruct (Qeq_bool _ _) eqn:E; [| reflexivity].
  apply Qeq_bool_iff in E. exfalso. apply H.
  unfold alphaMax, Qeq, Qdiv, Qmult, Qinv, inject_Z in E; simpl in E. lia.
Qed.

Lemma Qeq_bool_refl_alpha (x : Q) : Qeq_bool x x = true.
Proof. apply Qeq_bool_iff. reflexivity. Qed.

Lemma draw_same_alpha style a paths gc :
  gofpdf.alpha (pdf gc) == inject_Z a / alphaMax ->
  gofpdf.commands (pdf (draw style a paths gc)) =
  gofpdf.commands (pdf gc) ++
    [gofpdf.PathOps (paths ++ [Path (cur gc)]); gofpdf.DrawPathCmd style].
Proof.
  intros H. rewrite draw_commands.
  rewrite (Qeq_bool_compat_r _ _ (inject_Z a / alphaMax) H), Qeq_bool_refl_alpha.
  reflexivity.
Qed.

Lemma Stroke_spec paths gc :
  cur (Stroke paths gc) = set_Path NewPathStorage (cur gc) /\
  gofpdf.alpha (pdf (Stroke paths gc)) == inject_Z (CA (StrokeColor (cur gc))) / alphaMax /\
  exists new,
    gofpdf.commands (pdf (Stroke paths gc)) = gofpdf.commands (pdf gc) ++ new /\
    pathOps new = [paths ++ [Path (cur gc)]] /\
    sameDraws (drawsAt (gofpdf.alpha (pdf gc)) new)
      [("D"%string, inject_Z (CA (StrokeColor (cur gc))) / alphaMax)].
Proof.
  unfold Stroke; cbv zeta. rewrite cur_resetPath, resetPath_pdf.
  destruct (draw_cmds "D" (CA (StrokeColor (cur gc))) paths gc) as [C [A [new [E [P D]]]]].
  rewrite C. split; [reflexivity |]. split; [exact A |].
  exists new. split; [exact E |]. split; [exact P |].
  specialize (D []); rewrite app_nil_r in D; rewrite D.
  constructor; [split; [reflexivity | exact A] | constructor].
Qed.

Lemma Fill_spec paths gc :
  let style := if negb (UseNonZeroWinding (FillRule (cur gc))) then "F*"%string else "F"%string in
  cur (Fill paths gc) = set_Path NewPathStorage (cur gc) /\
  gofpdf.alpha (pdf (Fill paths gc)) == inject_Z (CA (FillColor (cur gc))) / alphaMax /\
  exists new,
    gofpdf.commands (pdf (Fill paths gc)) = gofpdf.commands (pdf gc) ++ new /\
    pathOps new = [paths ++ [Path (cur gc)]] /\
    sameDraws (drawsAt (gofpdf.alpha (pdf gc)) new)
      [(style, inject_Z (CA (FillColor (cur gc))) / alphaMax)].
Proof.
  intros style. unfold Fill; fold style; cbv zeta. rewrite cur_resetPath, resetPath_pdf.
  destruct (draw_cmds style (CA (FillColor (cur gc))) paths gc) as [C [A [new [E [P D]]]]].
  rewrite C. split; [reflexivity |]. split; [exact A |].
  exists new. split; [exact E |]. split; [exact P |].
  specialize (D []); rewrite app_nil_r in D; rewrite D.
  constructor; [split; [reflexivity | exact A] | constructor].
Qed.

Lemma set_Path_fields p c :
  StrokeColor (set_Path p c) = StrokeColor c /\ FillColor (set_Path p c) = FillColor c /\
  FillRule (set_Path p c) = FillRule c /\ Path (set_Path p c) = p /\
  Font (set_Path p c) = Font c /\ FontSize (set_Path p c) = FontSize c /\
  Scale (set_Path p c) = Scale c.
Proof. destruct c; repeat split. Qed.

(** [Stroke] hands the document handle the extra paths followed by the
    current path, issues one draw command, [D], at the stroke colour's
    alpha, and then empties the current path, leaving the rest of the state
    as it was. *)
Theorem Stroke_draws_once (paths : list PathStorage) (gc : GraphicContext) :
  cur (Stroke paths gc) = set_Path NewPathStorage (cur gc) /\
  exists new,
    gofpdf.commands (pdf (Stroke paths gc)) = gofpdf.commands (pdf gc) ++ new /\
    pathOps new = [paths ++ [Path (cur gc)]] /\
    sameDraws (drawsAt (gofpdf.alpha (pdf gc)) new)
      [("D"%string, inject_Z (CA (StrokeColor (cur gc))) / alphaMax)].
Proof.
  destruct (Stroke_spec paths gc) as [C [_ R]]. split; [exact C | exact R].
Qed.

(** [Fill] hands the document handle the extra paths followed by the
    current path, issues one draw command, [F] for the non-zero winding rule
    and [F*] for the even-odd rule, at the fill colour's alpha, and then
    empties the current path, leaving the rest of the state as it was. *)
Theorem Fill_draws_once (paths : list PathStorage) (gc : GraphicContext) :
  let style := if negb (UseNonZeroWinding (FillRule (cur gc))) then "F*"%string else "F"%string in
  cur (Fill paths gc) = set_Path NewPathStorage (cur gc) /\
  exists new,
    gofpdf.commands (pdf (Fill paths gc)) = gofpdf.commands (pdf gc) ++ new /\
    pathOps new = [paths ++ [Path (cur gc)]] /\
    sameDraws (drawsAt (gofpdf.alpha (pdf gc)) new)
      [(style, inject_Z (CA (FillColor (cur gc))) / alphaMax)].
Proof.
  intros style. destruct (Fill_spec paths gc) as [C [_ R]]. split; [exact C | exact R].
Qed.

(** The alpha cache of [draw]: a second [Stroke] (or a second [Fill])
    right after the first finds the document handle at the same alpha and
    sends it only the paths and the draw command, no alpha command; its
    paths are the extra ones and the empty path left by the first. *)
Theorem repeat_paint_sends_no_alpha (paths1 paths2 : list PathStorage) (gc : GraphicContext) :
  let fillStyle := if negb (UseNonZeroWinding (FillRule (cur gc))) then "F*"%string else "F"%string in
  gofpdf.commands (pdf (Stroke paths2 (Stroke paths1 gc))) =
    gofpdf.commands (pdf (Stroke paths1 gc)) ++
    [gofpdf.PathOps (paths2 ++ [NewPathStorage]); gofpdf.DrawPathCmd "D"] /\
  gofpdf.commands (pdf (Fill paths2 (Fill paths1 gc))) =
    gofpdf.commands (pdf (Fill paths1 gc)) ++
    [gofpdf.PathOps (paths2 ++ [NewPathStorage]); gofpdf.DrawPathCmd fillStyle].
Proof.
  intros fillStyle. split.
  - destruct (Stroke_spec paths1 gc) as [C [A _]].
    set (g1 := Stroke paths1 gc) in *.
    unfold Stroke at 1; cbv zeta. rewrite resetPath_pdf.
    destruct (set_Path_fields NewPathStorage (cur gc)) as [S [_ [_ [P _]]]].
    rewrite draw_same_alpha; rewrite C, ?S, ?P; [reflexivity | exact A].
  - destruct (Fill_spec paths1 gc) as [C [A _]].
    set (g1 := Fill paths1 gc) in *.
    unfold Fill at 1; cbv zeta. rewrite resetPath_pdf.
    destruct (set_Path_fields NewPathStorage (cur gc)) as [_ [F [R [P _]]]].
    rewrite draw_same_alpha; rewrite C, ?F, ?R, ?P; [reflexivity | exact A].
Qed.

Lemma draw_cur style a paths gc : cur (draw style a paths gc) = cur gc.
Proof. reflexivity. Qed.

(** [FillStroke] with different stroke and fill alphas never finds the
    document handle at the right alpha when it is repeated: the second call
    sends, for the fill and again for the stroke, the path list (the extra
    paths and the empty path left by the first call), an alpha command with
    the handle's blend mode, and the draw command. *)
Theorem FillStroke_distinct_alphas_resend (paths1 paths2 : list PathStorage)
  (gc : GraphicContext)
  (Hne : CA (StrokeColor (cur gc)) <> CA (FillColor (cur gc))) :
  let rule := if negb (UseNonZeroWinding (FillRule (cur gc))) then "*"%string else ""%string in
  let aS := inject_Z (CA (StrokeColor (cur gc))) / alphaMax in
  let aF := inject_Z (CA (FillColor (cur gc))) / alphaMax in
  let bm := gofpdf.blendMode (pdf gc) in
  let L := paths2 ++ [NewPathStorage] in
  gofpdf.commands (pdf (FillStroke paths2 (FillStroke paths1 gc))) =
    gofpdf.commands (pdf (FillStroke paths1 gc)) ++
    [gofpdf.PathOps L; gofpdf.SetAlphaCmd aF bm; gofpdf.DrawPathCmd ("F" ++ rule);
     gofpdf.PathOps L; gofpdf.SetAlphaCmd aS bm; gofpdf.DrawPathCmd "S"].
Proof.
  cbv zeta.
  assert (Hb : (CA (StrokeColor (cur gc)) =? CA (FillColor (cur gc)))%Z = false)
    by (apply Z.eqb_neq; exact Hne).
  assert (G1 : cur (FillStroke paths1 gc) = set_Path NewPathStorage (cur gc) /\
               gofpdf.alpha (pdf (FillStroke paths1 gc)) ==
                 inject_Z (CA (StrokeColor (cur gc))) / alphaMax /\
               gofpdf.blendMode (pdf (FillStroke paths1 gc)) = gofpdf.blendMode (pdf gc)).
  { unfold FillStroke; cbv zeta. rewrite Hb, cur_resetPath, resetPath_pdf, !draw_cur.
    split; [reflexivity |].
    match goal with |- context [draw "S" ?a ?p ?h] =>
      destruct (draw_cmds "S" a p h) as [_ [A2 _]] end.
    split; [exact A2 |]. rewrite !draw_blendMode. reflexivity. }
  destruct G1 as [C1 [A1 B1]].
  set (g1 := FillStroke paths1 gc) in *.
  unfold FillStroke at 1; cbv zeta. rewrite resetPath_pdf, C1.
  destruct (set_Path_fields NewPathStorage (cur gc)) as [S [F [R [P _]]]].
  rewrite S, F, R, Hb.
  rewrite draw_commands, draw_commands, draw_alpha, draw_blendMode, !draw_cur, C1, P, B1.
  rewrite (Qeq_bool_compat_r _ _ _ A1).
  rewrite (Qeq_bool_alpha_ne _ _ (not_eq_sym Hne)).
  rewrite (Qeq_bool_alpha_ne _ _ Hne).
  rewrite <- !app_assoc. reflexivity.
Qed.

(* ------------------------------------------------------------------ *)
(** ** Further properties: glyph outlines and text *)

Lemma contourStep_segments dx dy q p :
  Forall (fun c => isSegment c = true) (fst (contourStep dx dy q p)) /\
  (List.length (fst (contourStep dx dy q p)) <= 1)%nat.
Proof.
  destruct q as [[x y] o]. unfold contourStep.
  destruct (pointToF64Point p) as [qX qY].
  destruct (onCurve p), o; cbn; split; auto.
Qed.

Lemma contourLoop_segments dx dy ps : forall q,
  Forall (fun c => isSegment c = true) (fst (contourLoop dx dy q ps)) /\
  (List.length (fst (contourLoop dx dy q ps)) <= List.length ps)%nat.
Proof.
  induction ps as [| p ps IH]; intros q; cbn [contourLoop].
  - split; auto.
  - pose proof (contourStep_segments dx dy q p) as [F1 L1].
    destruct (contourStep dx dy q p) as [c1 q1].
    specialize (IH q1).
    destruct (contourLoop dx dy q1 ps) as [c2 q2].
    cbn [fst] in *. destruct IH as [F2 L2].
    split; [apply Forall_app; auto |]. rewrite length_app. cbn [List.length]. lia.
Qed.

(** [drawContour] on a non-empty contour: its calls are one move-to at the
    first point, then between one and [len(ps)] segments (line-to or
    quadratic curve-to), never another move-to, the last of which ends back
    at the first point; all offset by [(dx, dy)].  So every contour is drawn
    as one closed subpath. *)
Theorem drawContour_closed_subpath (p0 : truetype.Point) (rest : list truetype.Point)
  (dx dy : Q) :
  let sX := fst (pointToF64Point p0) in
  let sY := snd (pointToF64Point p0) in
  exists body,
    contourCalls (p0 :: rest) dx dy = MoveTo (sX + dx) (sY + dy) :: body /\
    Forall (fun c => isSegment c = true) body /\
    segEnd (last body Close) = Some (sX + dx, sY + dy) /\
    (1 <= List.length body <= S (List.length rest))%nat.
Proof.
  intros sX sY. unfold contourCalls.
  change (pointToF64Point p0) with (sX, sY). cbv iota beta.
  pose proof (contourLoop_segments dx dy rest (sX, sY, true)) as [F L].
  destruct (contourLoop dx dy (sX, sY, true) rest) as [b [[qX qY] o]].
  cbn [fst] in F, L.
  exists (b ++ [closeContour dx dy sX sY (qX, qY, o)]).
  split; [reflexivity |].
  split; [apply Forall_app; split; [exact F | constructor; [destruct o; reflexivity | constructor]] |].
  split; [rewrite last_last; destruct o; reflexivity |].
  rewrite length_app. cbn [List.length]. lia.
Qed.

Lemma set_Path_eta k : set_Path (Path k) k = k.
Proof. destruct k; reflexivity. Qed.

Lemma extendGC_nil gc : extendGC gc [] [] = gc.
Proof.
  destruct gc as [[k s] p d l]. unfold extendGC, cur; cbn.
  rewrite !app_nil_r, set_Path_eta. reflexivity.
Qed.

Lemma extendGC_extendGC gc c1 c2 m :
  extendGC (extendGC gc c1 []) c2 m = extendGC gc (c1 ++ c2) m.
Proof.
  destruct gc as [[k s] p d l]. unfold extendGC, cur; cbn.
  rewrite set_Path_set_Path, app_nil_r. destruct k; cbn. rewrite app_assoc. reflexivity.
Qed.

Lemma log_extendGC gc c err : log_Println err (extendGC gc c []) = extendGC gc c [err].
Proof. unfold log_Println, extendGC; cbn. rewrite app_nil_r. reflexivity. Qed.

Lemma cur_extendGC gc c m : cur (extendGC gc c m) = set_Path (Path (cur gc) ++ c) (cur gc).
Proof. reflexivity. Qed.

Lemma drawContour_extend ps dx dy gc :
  drawContour ps dx dy gc = extendGC gc (contourCalls ps dx dy) [].
Proof. unfold drawContour, extendGC. rewrite pathCalls_fold, app_nil_r. reflexivity. Qed.

Lemma drawContours_extend pts dx dy ends : forall e0 gc,
  endsOK e0 ends (List.length pts) = true ->
  drawContours pts e0 ends dx dy gc =
  Some (extendGC gc (List.concat (map (fun ps => contourCalls ps dx dy) (contourSlices pts e0 ends))) []).
Proof.
  induction ends as [| e1 es IH]; intros e0 gc H; cbn [drawContours contourSlices map List.concat].
  - rewrite extendGC_nil. reflexivity.
  - cbn [endsOK] in H. apply andb_prop in H as [H Hes]. apply andb_prop in H as [H0 H1].
    unfold goSlice; rewrite H0, H1; cbn [andb].
    rewrite IH by exact Hes. rewrite drawContour_extend, extendGC_extendGC. reflexivity.
Qed.

Lemma drawContours_frame pts dx dy ends : forall e0 gc,
  match drawContours pts e0 ends dx dy gc with
  | None => True
  | Some gc' => exists calls, gc' = extendGC gc calls []
  end.
Proof.
  induction ends as [| e1 es IH]; intros e0 gc; cbn [drawContours].
  - exists []. symmetry; apply extendGC_nil.
  - destruct (goSlice pts e0 e1) as [ps |]; [| exact I].
    specialize (IH e1 (drawContour ps dx dy gc)).
    destruct (drawContours pts e1 es dx dy (drawContour ps dx dy gc)); [| exact I].
    destruct IH as [c E]. rewrite E, drawContour_extend, extendGC_extendGC.
    eexists; reflexivity.
Qed.

Lemma drawGlyph_frame glyph dx dy gc :
  match drawGlyph glyph dx dy gc with
  | None => True
  | Some (None, gc1) => exists calls, gc1 = extendGC gc calls []
  | Some (Some _, gc1) => gc1 = gc
  end.
Proof.
  unfold drawGlyph. destruct (Font (cur gc)) as [f |]; [| exact I].
  destruct (truetype.GlyphLoad f _ glyph) as [err | [pts ends]]; [reflexivity |].
  pose proof (drawContours_frame pts dx dy ends 0 gc) as Fr.
  destruct (drawContours pts 0 ends dx dy gc); [exact Fr | exact I].
Qed.

Lemma layoutLoop_frame font startx y s : forall x prev hasPrev gc,
  match layoutLoop font startx y s x prev hasPrev gc with
  | None => True
  | Some (_, gc') => exists calls msgs, gc' = extendGC gc calls msgs /\ (List.length msgs <= 1)%nat
  end.
Proof.
  induction s as [| r s IH]; intros x prev hasPrev gc; cbn [layoutLoop].
  - exists [], []. split; [symmetry; apply extendGC_nil | cbn; lia].
  - destruct font as [f |]; [| exact I]. cbv zeta.
    match goal with |- context [drawGlyph ?g ?a ?b gc] =>
      pose proof (drawGlyph_frame g a b gc) as Fr; destruct (drawGlyph g a b gc) as [[[err |] gc1] |]
    end.
    + subst gc1. exists [], [err]. split; [| cbn; lia].
      rewrite <- log_extendGC, extendGC_nil. reflexivity.
    + destruct Fr as [c1 E1].
      match goal with |- context [layoutLoop _ _ _ s ?x' ?p' ?h' gc1] =>
        specialize (IH x' p' h' gc1); destruct (layoutLoop (Some f) startx y s x' p' h' gc1)
          as [[w gc'] |] end; [| exact I].
      destruct IH as [c2 [m [E2 L]]]. exists (c1 ++ c2), m.
      rewrite E2, E1, extendGC_extendGC. auto.
    + exact I.
Qed.

Lemma CreateStringPath_frame gc s x y :
  match CreateStringPath gc s x y with
  | None => True
  | Some (_, gc') => exists calls msgs, gc' = extendGC gc calls msgs /\ (List.length msgs <= 1)%nat
  end.
Proof. unfold CreateStringPath, loadCurrentFont; cbv iota beta. apply layoutLoop_frame. Qed.

(** With a font set and an outline whose [End] offsets slice its points
    without a panic, [drawGlyph] returns a nil error and only appends to the
    current path: the calls of [drawContour] for each slice
    [Point[e0:e1]] in order.  Nothing reaches the document handle. *)
Theorem drawGlyph_draws_contours (f : truetype.Font) (glyph : Z) (dx dy : Q)
  (gc : GraphicContext) (pts : list truetype.Point) (ends : list nat)
  (Hf : Font (cur gc) = Some f)
  (Hl : truetype.GlyphLoad f (int32_of_float (Scale (cur gc))) glyph = inr (pts, ends))
  (Hends : endsOK 0 ends (List.length pts) = true) :
  drawGlyph glyph dx dy gc =
  Some (None, extendGC gc (List.concat (map (fun ps => contourCalls ps dx dy)
                                      (contourSlices pts 0 ends))) []).
Proof. unfold drawGlyph. rewrite Hf, Hl, drawContours_extend by exact Hends. reflexivity. Qed.

(** Whatever the string and font, [CreateStringPath] changes nothing but
    the current path, to which it only
    appends, and the log, to which it adds at most one line; the document
    handle, the DPI, the saved states and every other field of the current
    state are left as they were (or it panics). *)
Theorem CreateStringPath_only_appends_path (gc : GraphicContext) (s : list Z) (x y : Q) :
  match CreateStringPath gc s x y with
  | None => True
  | Some (_, gc') => exists calls msgs, gc' = extendGC gc calls msgs /\ (List.length msgs <= 1)%nat
  end.
Proof. apply CreateStringPath_frame. Qed.

(** With no font set, drawing any non-empty string panics: [CreateStringPath],
    [FillStringAt], [StrokeStringAt], [FillString] and [StrokeString] all
    call a method on the nil font. *)
Theorem string_without_font_panics (gc : GraphicContext) (r : Z) (s : list Z) (x y : Q)
  (Hf : Font (cur gc) = None) :
  CreateStringPath gc (r :: s) x y = None /\ FillStringAt gc (r :: s) x y = None /\
  StrokeStringAt gc (r :: s) x y = None /\ FillString gc (r :: s) = None /\
  StrokeString gc (r :: s) = None.
Proof.
  assert (E : forall x' y', CreateStringPath gc (r :: s) x' y' = None).
  { intros x' y'. unfold CreateStringPath, loadCurrentFont. rewrite Hf. reflexivity. }
  unfold FillString, StrokeString, FillStringAt, StrokeStringAt. rewrite !E. auto.
Qed.

(** [FillStringAt] returns the width [CreateStringPath] returns, then
    fills: the document handle receives exactly the laid-out path (no extra
    path), one fill draw command ([F], or [F*] for the even-odd rule) at the
    fill colour's alpha, and the current path is left empty. *)
Theorem FillStringAt_fills_text_path (gc : GraphicContext) (text : list Z) (x y : Q) :
  let style := if negb (UseNonZeroWinding (FillRule (cur gc))) then "F*"%string else "F"%string in
  match FillStringAt gc text x y with
  | None => CreateStringPath gc text x y = None
  | Some (w, gc') =>
      exists gc1,
        CreateStringPath gc text x y = Some (w, gc1) /\
        Path (cur gc') = NewPathStorage /\
        exists new,
          gofpdf.commands (pdf gc') = gofpdf.commands (pdf gc) ++ new /\
          pathOps new = [[Path (cur gc1)]] /\
          sameDraws (drawsAt (gofpdf.alpha (pdf gc)) new)
            [(style, inject_Z (CA (FillColor (cur gc))) / alphaMax)]
  end.
Proof.
  intros style. unfold FillStringAt.
  pose proof (CreateStringPath_frame gc text x y) as Fr.
  destruct (CreateStringPath gc text x y) as [[w gc1] |]; [| reflexivity].
  destruct Fr as [calls [msgs [E _]]].
  exists gc1. split; [reflexivity |].
  destruct (Fill_spec [] gc1) as [C [_ [new [Ec [P D]]]]].
  split; [rewrite C; apply set_Path_fields |].
  exists new. subst gc1. rewrite cur_extendGC in D.
  destruct (set_Path_fields (Path (cur gc) ++ calls) (cur gc)) as [_ [F [R _]]].
  rewrite F, R in D. split; [exact Ec |]. split; [exact P | exact D].
Qed.

(* ------------------------------------------------------------------ *)
(** ** Further properties: DPI, font scale and the state stack *)

Lemma transformDepth_app l1 l2 :
  transformDepth (l1 ++ l2) = (transformDepth l1 + transformDepth l2)%Z.
Proof.
  induction l1 as [| c l1 IH]; [reflexivity |].
  destruct c; cbn [app transformDepth]; rewrite IH; lia.
Qed.

Lemma transformDepth_draw style a paths gc :
  transformDepth (gofpdf.commands (pdf (draw style a paths gc))) =
  transformDepth (gofpdf.commands (pdf gc)).
Proof.
  rewrite draw_commands, transformDepth_app.
  destruct (Qeq_bool _ _); cbn; lia.
Qed.

Lemma runDraw_frame op paths gc :
  cur (runDraw op paths gc) = set_Path NewPathStorage (cur gc) /\
  Saved (stack (runDraw op paths gc)) = Saved (stack gc) /\
  DPI (runDraw op paths gc) = DPI gc /\ logs (runDraw op paths gc) = logs gc /\
  transformDepth (gofpdf.commands (pdf (runDraw op paths gc))) =
  transformDepth (gofpdf.commands (pdf gc)).
Proof.
  destruct op; unfold runDraw.
  - unfold Fill; cbv zeta. rewrite cur_resetPath, resetPath_pdf, draw_cur, transformDepth_draw.
    repeat split.
  - unfold Stroke; cbv zeta. rewrite cur_resetPath, resetPath_pdf, draw_cur, transformDepth_draw.
    repeat split.
  - unfold FillStroke; cbv zeta. rewrite cur_resetPath, resetPath_pdf.
    destruct (_ =? _)%Z; rewrite ?draw_cur, ?transformDepth_draw; repeat split.
Qed.

Lemma runOp_frame o gc :
  Saved (stack (runOp o gc)) = Saved (stack gc) /\
  DPI (runOp o gc) = match o with DoSetDPI d => d | _ => DPI gc end /\
  transformDepth (gofpdf.commands (pdf (runOp o gc))) =
  transformDepth (gofpdf.commands (pdf gc)).
Proof.
  destruct o; cbn [runOp].
  - repeat split.
  - repeat split.
  - repeat split.
  - rewrite cmds_SetLineWidth, transformDepth_app. cbn. repeat split; lia.
  - rewrite cmds_SetStrokeColor, transformDepth_app. destruct (rgb c) as [[r g] b].
    cbn. repeat split; lia.
  - rewrite cmds_SetFillColor, transformDepth_app. destruct (rgb c) as [[r g] b].
    cbn. repeat split; lia.
  - repeat split.
  - rewrite cmds_SetLineCap, transformDepth_app. cbn. repeat split; lia.
  - rewrite cmds_SetLineJoin, transformDepth_app. cbn. repeat split; lia.
  - unfold SetLineDash, upd_pdf, gofpdf.emit; cbn. rewrite transformDepth_app. cbn.
    repeat split; lia.
  - repeat split.
  - destruct (runDraw_frame op paths gc) as [_ [S [D [_ T]]]]. auto.
Qed.

Lemma runOps_frame os : forall gc,
  Saved (stack (runOps os gc)) = Saved (stack gc) /\
  transformDepth (gofpdf.commands (pdf (runOps os gc))) =
  transformDepth (gofpdf.commands (pdf gc)).
Proof.
  induction os as [| o os IH]; intros gc; cbn [runOps]; [auto |].
  destruct (IH (runOp o gc)) as [S T]. destruct (runOp_frame o gc) as [S' [_ T']].
  rewrite S, T, S', T'. auto.
Qed.

Lemma cur_SetLineDash d off gc :
  cur (SetLineDash d off gc) =
  let c := cur gc in
  mkContext (Font c) (FontSize c) (Scale c) (LineWidth c) (StrokeColor c) (FillColor c)
    (FillRule c) d off (Cap c) (Join c) (Path c).
Proof. reflexivity. Qed.

Lemma cur_SetFont f gc :
  cur (SetFont f gc) =
  let c := cur gc in
  mkContext f (FontSize c) (Scale c) (LineWidth c) (StrokeColor c) (FillColor c)
    (FillRule c) (Dash c) (DashOffset c) (Cap c) (Join c) (Path c).
Proof. reflexivity. Qed.

Lemma cur_pathCall c gc : cur (pathCall c gc) = set_Path (Path (cur gc) ++ [c]) (cur gc).
Proof. reflexivity. Qed.

Lemma scaleOK_runOp o gc : scaleOK gc -> scaleOK (runOp o gc).
Proof.
  unfold scaleOK. intros H. destruct o; cbn [runOp].
  - rewrite cur_SetFont. destruct (cur gc); exact H.
  - rewrite cur_SetFontSize. destruct (cur gc); reflexivity.
  - unfold SetDPI, recalc, upd_Current, cur; cbn. destruct (Current (stack gc)); reflexivity.
  - rewrite cur_SetLineWidth. destruct (cur gc); exact H.
  - rewrite cur_SetStrokeColor. destruct (cur gc); exact H.
  - rewrite cur_SetFillColor. destruct (cur gc); exact H.
  - rewrite cur_SetFillRule. destruct (cur gc); exact H.
  - rewrite cur_SetLineCap. destruct (cur gc); exact H.
  - rewrite cur_SetLineJoin. destruct (cur gc); exact H.
  - rewrite cur_SetLineDash. destruct (cur gc); exact H.
  - rewrite cur_pathCall. destruct (cur gc); exact H.
  - destruct (runDraw_frame op paths gc) as [C [_ [D _]]]. rewrite C, D.
    destruct (cur gc); exact H.
Qed.

Lemma cur_pop f gc :
  cur (upd_stack stackRestore (upd_pdf f gc)) =
  match Saved (stack gc) with [] => cur gc | c :: _ => c end.
Proof. unfold upd_stack, upd_pdf, stackRestore, cur; cbn. destruct (Saved (stack gc)); reflexivity. Qed.

Lemma Saved_SetFontSize s gc : Saved (stack (SetFontSize s gc)) = Saved (stack gc).
Proof. reflexivity. Qed.
Lemma Saved_SetLineWidth w gc : Saved (stack (SetLineWidth w gc)) = Saved (stack gc).
Proof. reflexivity. Qed.
Lemma Saved_SetStrokeColor k gc : Saved (stack (SetStrokeColor k gc)) = Saved (stack gc).
Proof. unfold SetStrokeColor. destruct (rgb k) as [[r g] b]. reflexivity. Qed.
Lemma Saved_SetFillColor k gc : Saved (stack (SetFillColor k gc)) = Saved (stack gc).
Proof. unfold SetFillColor. destruct (rgb k) as [[r g] b]. reflexivity. Qed.
Lemma Saved_SetFillRule f gc : Saved (stack (SetFillRule f gc)) = Saved (stack gc).
Proof. reflexivity. Qed.
Lemma Saved_SetLineCap k gc : Saved (stack (SetLineCap k gc)) = Saved (stack gc).
Proof. reflexivity. Qed.
Lemma Saved_SetLineJoin j gc : Saved (stack (SetLineJoin j gc)) = Saved (stack gc).
Proof. reflexivity. Qed.
Lemma DPI_SetLineJoin j gc : DPI (SetLineJoin j gc) = DPI gc.
Proof. reflexivity. Qed.

Lemma Restore_state gc :
  let c := match Saved (stack gc) with [] => cur gc | c :: _ => c end in
  cur (Restore gc) =
    set_Join (Join c) (set_Cap (Cap c) (set_FillRule (FillRule c)
      (set_FillColor (FillColor c) (set_StrokeColor (StrokeColor c)
        (set_LineWidth (LineWidth c)
          (set_Scale (FontSize c * inject_Z (DPI gc) * (64 / 72) / 3)
            (set_FontSize (FontSize c) c))))))) /\
  Saved (stack (Restore gc)) = match Saved (stack gc) with [] => [] | _ :: rest => rest end /\
  DPI (Restore gc) = DPI gc /\
  gofpdf.commands (pdf (Restore gc)) = gofpdf.commands (pdf gc) ++
    [gofpdf.TransformEndCmd] ++
    [gofpdf.SetLineWidthCmd (LineWidth c)] ++
    [let '(r, g, b) := rgb (StrokeColor c) in gofpdf.SetDrawColorCmd r g b] ++
    (let '(r, g, b) := rgb (FillColor c) in [gofpdf.SetFillColorCmd r g b; gofpdf.SetTextColorCmd r g b]) ++
    [gofpdf.SetLineCapStyleCmd (caps (Cap c))] ++
    [gofpdf.SetLineJoinStyleCmd (joins (Join c))].
Proof.
  intros c. unfold Restore. cbv zeta.
  split; [| split; [| split]].
  - rewrite cur_SetLineJoin, cur_SetLineCap, cur_SetFillRule, cur_SetFillColor,
      cur_SetStrokeColor, cur_SetLineWidth, cur_SetFontSize,
      ?DPI_SetLineCap, ?DPI_SetFillRule, ?DPI_SetFillColor, ?DPI_SetStrokeColor,
      ?DPI_SetLineWidth, ?DPI_SetFontSize, cur_pop.
    reflexivity.
  - rewrite Saved_SetLineJoin, Saved_SetLineCap, Saved_SetFillRule, Saved_SetFillColor,
      Saved_SetStrokeColor, Saved_SetLineWidth, Saved_SetFontSize.
    clear c. destruct gc as [[k [| c0 rest]] p d l]; reflexivity.
  - rewrite DPI_SetLineJoin, DPI_SetLineCap, DPI_SetFillRule, DPI_SetFillColor,
      DPI_SetStrokeColor, DPI_SetLineWidth, DPI_SetFontSize. reflexivity.
  - rewrite cmds_SetLineJoin, cmds_SetLineCap, cmds_SetFillRule, cmds_SetFillColor,
      cmds_SetStrokeColor, cmds_SetLineWidth, cmds_SetFontSize.
    rewrite ?cur_SetLineCap, ?cur_SetFillRule, ?cur_SetFillColor, ?cur_SetStrokeColor,
      ?cur_SetLineWidth, ?cur_SetFontSize, cur_pop.
    fold c.
    unfold upd_stack, upd_pdf, gofpdf.TransformEnd, gofpdf.emit; cbn.
    rewrite <- !app_assoc. destruct c; reflexivity.
Qed.

Lemma scaleOK_runOps os : forall gc, scaleOK gc -> scaleOK (runOps os gc).
Proof.
  induction os as [| o os IH]; intros gc H; cbn [runOps]; [exact H |].
  apply IH, scaleOK_runOp, H.
Qed.

(** [SetDPI] and [SetFontSize] commute: both orders give the same state.
    After [SetDPI d], [GetDPI] returns [d], the current state differs only
    in [Scale], recomputed from the font size at the new DPI, and the
    document handle is untouched. *)
Theorem SetDPI_SetFontSize_commute (d : Z) (s : Q) (gc : GraphicContext) :
  SetDPI d (SetFontSize s gc) = SetFontSize s (SetDPI d gc) /\
  GetDPI (SetDPI d gc) = d /\
  cur (SetDPI d gc) = set_Scale (FontSize (cur gc) * inject_Z d * (64 / 72) / 3) (cur gc) /\
  pdf (SetDPI d gc) = pdf gc.
Proof.
  destruct gc as [[[] sv] p dd l].
  split; [reflexivity |]. split; [reflexivity |]. split; reflexivity.
Qed.

(** Whatever the state before, after [SetDPI], [SetFontSize] or [Restore]
    the font scale is [FontSize * DPI * (64/72) / 3]: [Restore] recomputes
    it for the restored font size. *)
Theorem scale_recomputed (gc : GraphicContext) (d : Z) (s : Q) :
  scaleOK (SetDPI d gc) /\ scaleOK (SetFontSize s gc) /\ scaleOK (Restore gc).
Proof.
  unfold scaleOK. split; [| split].
  - unfold SetDPI, recalc, upd_Current, cur; cbn. destruct (Current (stack gc)); reflexivity.
  - rewrite cur_SetFontSize. destruct (cur gc); reflexivity.
  - destruct (Restore_state gc) as [C [_ [D _]]]. rewrite C, D. cbv zeta.
    destruct (match Saved (stack gc) with [] => cur gc | c :: _ => c end); reflexivity.
Qed.

(** Once the font scale agrees with the font size and DPI, it keeps
    agreeing through [Save] and any sequence of setters ([SetFont],
    [SetFontSize], [SetDPI], line, colour, rule, cap, join and dash
    setters), path calls and paint calls. *)
Theorem scale_kept (os : list Op) (gc : GraphicContext) (H : scaleOK gc) :
  scaleOK (runOps os gc) /\ scaleOK (Save gc).
Proof. split; [apply scaleOK_runOps, H | exact H]. Qed.

(** [Save], then any sequence of setters, path and paint calls, then
    [Restore] brings back the whole current state as it was at [Save] (font,
    font size, line width, colours, fill rule, dash pattern, cap, join and
    path), except the font scale, which is recomputed from the restored font
    size at the DPI current at [Restore]; the saved-state stack is as before
    [Save]. *)
Theorem Save_ops_Restore_state (gc : GraphicContext) (os : list Op) :
  let gc1 := runOps os (Save gc) in
  cur (Restore gc1) =
    set_Scale (FontSize (cur gc) * inject_Z (DPI gc1) * (64 / 72) / 3) (cur gc) /\
  Saved (stack (Restore gc1)) = Saved (stack gc).
Proof.
  intros gc1.
  destruct (runOps_frame os (Save gc)) as [S _]. fold gc1 in S.
  assert (S' : Saved (stack gc1) = cur gc :: Saved (stack gc)) by (rewrite S; reflexivity).
  destruct (Restore_state gc1) as [C [Sv _]]. cbv zeta in C.
  rewrite S' in C, Sv. cbv iota beta in C, Sv.
  split; [rewrite C; destruct (cur gc); reflexivity | exact Sv].
Qed.

(** Counting in the document's command log each [TransformBegin] as one
    open block and each [TransformEnd] as one closed block, the open blocks
    minus the depth of the saved-state stack are unchanged by [Save], by any
    sequence of setters, path and paint calls, and by [Restore] on a
    non-empty stack; [Restore] on an empty stack still sends a
    [TransformEnd] and lowers the count by one. *)
Theorem transform_blocks_balanced (gc : GraphicContext) (os : list Op) :
  blockBalance (Save gc) = blockBalance gc /\
  blockBalance (runOps os gc) = blockBalance gc /\
  blockBalance (Restore gc) =
    match Saved (stack gc) with [] => (blockBalance gc - 1)%Z | _ :: _ => blockBalance gc end.
Proof.
  unfold blockBalance. split; [| split].
  - unfold Save, upd_pdf, upd_stack, gofpdf.TransformBegin, gofpdf.emit; cbn.
    rewrite transformDepth_app. cbn. lia.
  - destruct (runOps_frame os gc) as [S T]. rewrite S, T. reflexivity.
  - destruct (Restore_state gc) as [_ [Sv [_ Cm]]]. cbv zeta in Cm.
    rewrite Cm, Sv, transformDepth_app.
    destruct (rgb _) as [[r1 g1] b1]. destruct (rgb _) as [[r2 g2] b2].
    cbn [transformDepth app].
    destruct (Saved (stack gc)); cbn [List.length]; lia.
Qed.

(* ------------------------------------------------------------------ *)
(** ** Further properties: image names *)

Lemma Itoa_inj (a b : Z) : (0 <= a)%Z -> (0 <= b)%Z -> Itoa a = Itoa b -> a = b.
Proof.
  unfold Itoa. intros Ha Hb E.
  apply (f_equal DecimalString.NilEmpty.uint_of_string) in E.
  rewrite !DecimalString.NilEmpty.usu in E. injection E as E.
  apply DecimalN.Unsigned.to_uint_inj in E.
  apply Z2N.inj; assumption.
Qed.

Lemma registeredNames_app l1 l2 :
  registeredNames (l1 ++ l2) = registeredNames l1 ++ registeredNames l2.
Proof. unfold registeredNames. apply flat_map_app. Qed.

Lemma drawImages_run enc images : forall c calls, (0 <= c < 2 ^ 32)%Z ->
  fst (drawImages enc images (c, calls)) = ((c + Z.of_nat (List.length images)) mod 2 ^ 32)%Z /\
  registeredNames (snd (drawImages enc images (c, calls))) =
    registeredNames calls ++
    map (fun i => Itoa ((c + Z.of_nat i) mod 2 ^ 32)) (seq 0 (List.length images)).
Proof.
  induction images as [| img t IH]; intros c calls Hc; cbn [drawImages List.length seq map].
  - rewrite Z.add_0_r, Z.mod_small by lia. rewrite app_nil_r. auto.
  - unfold DrawImage; cbv beta iota zeta.
    destruct (IH ((c + 1) mod 2 ^ 32)%Z
      (calls ++ [RegisterImageReader (Itoa c) "PNG" (enc img);
                 ImageCmd (Itoa c) (inject_Z (MinX (Bounds img))) (inject_Z (MinY (Bounds img)))
                   (inject_Z (Dx (Bounds img))) (inject_Z (Dy (Bounds img))) false "PNG" 0 ""]))
      as [F N].
    { apply Z.mod_pos_bound. lia. }
    split.
    + rewrite F, Zplus_mod_idemp_l. f_equal. lia.
    + rewrite N, registeredNames_app, <- app_assoc. f_equal. cbn.
      rewrite Z.add_0_r, (Z.mod_small c) by lia. f_equal.
      rewrite <- seq_shift, map_map. apply map_ext. intros i.
      rewrite Zplus_mod_idemp_l. f_equal. f_equal. lia.
Qed.

Lemma NoDup_map_eq {A B} (f : A -> B) (l : list A) (x y : A) :
  NoDup (map f l) -> In x l -> In y l -> f x = f y -> x = y.
Proof.
  induction l as [| a l IH]; cbn; [tauto |].
  intros Hn Hx Hy E. inversion Hn as [| ? ? Hnin Hn']; subst.
  destruct Hx as [<- | Hx], Hy as [<- | Hy]; auto.
  - exfalso; apply Hnin; rewrite E; apply in_map; exact Hy.
  - exfalso; apply Hnin; rewrite <- E; apply in_map; exact Hx.
Qed.

Lemma image_names_NoDup (c : Z) (n : nat) : (0 <= c < 2 ^ 32)%Z ->
  NoDup (map (fun i => Itoa ((c + Z.of_nat i) mod 2 ^ 32)) (seq 0 n)) <->
  (Z.of_nat n <= 2 ^ 32)%Z.
Proof.
  intros Hc. split.
  - intros H. destruct (Z_le_gt_dec (Z.of_nat n) (2 ^ 32)) as [Hle | Hgt]; [exact Hle | exfalso].
    assert (E : 0%nat = Z.to_nat (2 ^ 32)).
    { apply (NoDup_map_eq _ _ _ _ H); [apply in_seq; lia | apply in_seq; lia |].
      rewrite Z2Nat.id by lia. rewrite Z.add_0_r.
      replace (c + 2 ^ 32)%Z with (c + 1 * 2 ^ 32)%Z by ring.
      rewrite Z.mod_add by lia. reflexivity. }
    lia.
  - intros Hn. apply NoDup_map_NoDup_ForallPairs; [| apply seq_NoDup].
    intros i j Hi Hj E. apply in_seq in Hi, Hj.
    apply Itoa_inj in E; [| apply Z.mod_pos_bound; lia | apply Z.mod_pos_bound; lia].
    apply Nat2Z.inj.
    assert (Hm : ((Z.of_nat i - Z.of_nat j) mod 2 ^ 32 = 0)%Z).
    { replace (Z.of_nat i - Z.of_nat j)%Z with ((c + Z.of_nat i) - (c + Z.of_nat j))%Z by ring.
      rewrite Zminus_mod, E, Z.sub_diag. reflexivity. }
    apply Z.mod_divide in Hm; [| lia]. destruct Hm as [k Hk].
    assert (k = 0)%Z by nia. subst k. lia.
Qed.

(** Successive [DrawImage] calls, from any value [c] of the [uint32]
    counter [imageCount], register their images under the names
    [Itoa((c + i) mod 2^32)], [i = 0, 1, ...], and leave the counter at
    [(c + n) mod 2^32] after [n] images.  These [n] names are pairwise
    distinct exactly when [n <= 2^32]: the [(2^32 + 1)]-th image reuses the
    first image's name. *)
Theorem DrawImage_names (enc : Image -> list Byte.byte) (images : list Image) (c : Z)
  (calls : list ImageCall) (Hc : (0 <= c < 2 ^ 32)%Z) :
  let n := List.length images in
  let names := map (fun i => Itoa ((c + Z.of_nat i) mod 2 ^ 32)) (seq 0 n) in
  fst (drawImages enc images (c, calls)) = ((c + Z.of_nat n) mod 2 ^ 32)%Z /\
  registeredNames (snd (drawImages enc images (c, calls))) = registeredNames calls ++ names /\
  (NoDup names <-> (Z.of_nat n <= 2 ^ 32)%Z).
Proof.
  intros n names.
  destruct (drawImages_run enc images c calls Hc) as [F N].
  split; [exact F |]. split; [exact N |]. apply image_names_NoDup, Hc.
Qed.

(* ------------------------------------------------------------------ *)
(** ** Witnesses of the further properties *)

Lemma FillStroke_distinct_alphas_resend_witness :
  CA (StrokeColor (cur (upd_Current (set_StrokeColor (mkColor 0 0 0 32768)) sampleGC))) <>
  CA (FillColor (cur (upd_Current (set_StrokeColor (mkColor 0 0 0 32768)) sampleGC))) /\
  (let gc := upd_Current (set_StrokeColor (mkColor 0 0 0 32768)) sampleGC in
   let rule := if negb (UseNonZeroWinding (FillRule (cur gc))) then "*"%string else ""%string in
   let aS := inject_Z (CA (StrokeColor (cur gc))) / alphaMax in
   let aF := inject_Z (CA (FillColor (cur gc))) / alphaMax in
   let bm := gofpdf.blendMode (pdf gc) in
   let L := [] ++ [NewPathStorage] in
   gofpdf.commands (pdf (FillStroke [] (FillStroke [] gc))) =
     gofpdf.commands (pdf (FillStroke [] gc)) ++
     [gofpdf.PathOps L; gofpdf.SetAlphaCmd aF bm; gofpdf.DrawPathCmd ("F" ++ rule);
      gofpdf.PathOps L; gofpdf.SetAlphaCmd aS bm; gofpdf.DrawPathCmd "S"]).
Proof.
  split; [cbn; lia |].
  apply (FillStroke_distinct_alphas_resend [] []
           (upd_Current (set_StrokeColor (mkColor 0 0 0 32768)) sampleGC)).
  cbn; lia.
Defined.

Lemma drawGlyph_draws_contours_witness :
  Font (cur sampleGC) = Some sampleFont /\
  truetype.GlyphLoad sampleFont (int32_of_float (Scale (cur sampleGC))) 65%Z =
    inr (sampleSquare, [4%nat]) /\
  endsOK 0 [4%nat] (List.length sampleSquare) = true /\
  drawGlyph 65%Z 0 0 sampleGC =
    Some (None, extendGC sampleGC (List.concat (map (fun ps => contourCalls ps 0 0)
                                                   (contourSlices sampleSquare 0 [4%nat]))) []).
Proof.
  split; [reflexivity |]. split; [vm_compute; reflexivity |]. split; [reflexivity |].
  apply (drawGlyph_draws_contours sampleFont 65%Z 0 0 sampleGC sampleSquare [4%nat]);
    [reflexivity | vm_compute; reflexivity | reflexivity].
Defined.

Lemma string_without_font_panics_witness :
  Font (cur (SetFont None sampleGC)) = None /\
  (CreateStringPath (SetFont None sampleGC) [65%Z] 0 0 = None /\
   FillStringAt (SetFont None sampleGC) [65%Z] 0 0 = None /\
   StrokeStringAt (SetFont None sampleGC) [65%Z] 0 0 = None /\
   FillString (SetFont None sampleGC) [65%Z] = None /\
   StrokeString (SetFont None sampleGC) [65%Z] = None).
Proof.
  split; [reflexivity |].
  apply (string_without_font_panics (SetFont None sampleGC) 65%Z [] 0 0). reflexivity.
Defined.

Lemma scale_kept_witness :
  scaleOK sampleGC /\
  (scaleOK (runOps [DoSetFontSize 10; DoSetLineWidth 2; DoPaint OpFill []] sampleGC) /\
   scaleOK (Save sampleGC)).
Proof.
  split; [vm_compute; reflexivity |].
  apply (scale_kept [DoSetFontSize 10; DoSetLineWidth 2; DoPaint OpFill []] sampleGC).
  vm_compute; reflexivity.
Defined.

Lemma DrawImage_names_witness :
  (0 <= 0 < 2 ^ 32)%Z /\
  (let images := [mkImage (mkRectangle 0 0 2 3) (fun _ _ => black);
                  mkImage (mkRectangle 1 1 4 4) (fun _ _ => white)] in
   let n := List.length images in
   let names := map (fun i => Itoa ((0 + Z.of_nat i) mod 2 ^ 32)) (seq 0 n) in
   fst (drawImages (fun _ => []) images (0%Z, [])) = ((0 + Z.of_nat n) mod 2 ^ 32)%Z /\
   registeredNames (snd (drawImages (fun _ => []) images (0%Z, []))) = registeredNames [] ++ names /\
   (NoDup names <-> (Z.of_nat n <= 2 ^ 32)%Z)).
Proof.
  split; [lia |].
  apply (DrawImage_names (fun _ => [])
           [mkImage (mkRectangle 0 0 2 3) (fun _ _ => black);
            mkImage (mkRectangle 1 1 4 4) (fun _ _ => white)] 0 []).
  lia.
Defined.
